(** * havoc: timestamp-resolved alternatives

    A shallow embedding of [havoc.hpp] (namespace [havoc]): the process-wide
    sequence counter [_counter], the heap-indirected box [optional<T>], the
    timestamped slot [option<T>], the variadic aggregate
    [option<T, Ts...>] / [one_of<T...>], and the two [visit] entry points
    with their [visitor_helper] recursion.

    Conventions of the embedding.
    - [std::atomic_uint64_t] and [size_t] are 64-bit unsigned integers,
      modelled as [Z] with the wrap-around of [++_counter] written out.
    - [std::unique_ptr<T>] owns at most one [T]: it is [Datatypes.option T],
      [None] being the null pointer.  Element types are value types: copying
      a [T] yields an equal [T].
    - Member functions that mutate [*this] return the new object; the ones
      that also leave a moved-from or vivified argument return that too.
    - Code that reads or writes [_counter] runs in the state monad [M]. *)

From Stdlib Require Import ZArith Lia String.
From stdpp Require Import base decidable option list.

Local Open Scope Z_scope.

Module havoc.

(** ** Value-initialisation

    [T()] and [return {};] need a value-initialised object of the type. *)
Class DefaultConstructible (T : Type) := value_init : T.

#[export] Instance Z_default_constructible : DefaultConstructible Z := 0.

(** ** The sequence counter *)

Definition uint64_modulus : Z := 2 ^ 64.

(** [static inline std::atomic_uint64_t _counter;] is zero-initialised. *)
Definition _counter_init : Z := 0.

(** Computations over the global [_counter]. *)
Definition M (A : Type) : Type := Z → A * Z.

#[export] Instance M_mret : MRet M := λ A (a : A) c, (a, c).

#[export] Instance M_bind : MBind M :=
  λ A B (k : A → M B) (m : M A) c, let '(a, c') := m c in k a c'.

(** [++_counter]: increment, wrapping at 2^64, and return the new value. *)
Definition pre_increment : M Z :=
  λ _counter, let n := (_counter + 1) mod uint64_modulus in (n, n).

(** [n] successive draws, collected in call order. *)
Fixpoint draws (n : nat) : M (list Z) :=
  match n with
  | O => mret []
  | S n' => x ← pre_increment ; xs ← draws n' ; mret (x :: xs)
  end.

(** ** [optional<T>] *)

Section optional.
Context {T : Type} `{!DefaultConstructible T}.

(** [struct optional { std::unique_ptr<T> _storage; }] *)
Definition optional : Type := Datatypes.option T.

(** [optional() = default] *)
Definition optional_default : optional := None.

(** [optional(const T& value)] and [optional(T&& value)]:
    [_storage(std::make_unique<T>(value))]. *)
Definition optional_of_value (value : T) : optional := Some value.

(** [optional(optional&& other) : _storage(std::move(other._storage))];
    returns the new box and the moved-from [other]. *)
Definition optional_move (other : optional) : optional * optional :=
  (other, None).

(** [operator bool() const] *)
Definition optional_bool (self : optional) : bool :=
  match self with Some _ => true | None => false end.

(** [T& operator*() const { return *_storage; }]: the contained value;
    on an empty box the null pointer is dereferenced and the behaviour is
    undefined, which is [None] here. *)
Definition optional_star (self : optional) : Datatypes.option T := self.

(** [T& get_or_create()]: the referenced value and the box afterwards. *)
Definition get_or_create (self : optional) : T * optional :=
  match self with
  | None => let fresh := value_init in (fresh, Some fresh)
  | Some v => (v, Some v)
  end.

(** [get_or_create() = value;]: write through the returned reference. *)
Definition get_or_create_assign (self : optional) (value : T) : optional :=
  match snd (get_or_create self) with
  | Some _ => Some value
  | None => None
  end.

(** [optional(const optional& other)] *)
Definition optional_copy (other : optional) : optional :=
  match other with
  | Some v => get_or_create_assign optional_default v
  | None => optional_default
  end.

(** [optional& operator=(const T& value)] and [operator=(T&& value)] *)
Definition optional_assign_value (self : optional) (value : T) : optional :=
  get_or_create_assign self value.

(** [optional& operator=(const optional& other)] *)
Definition optional_assign (self other : optional) : optional :=
  match other with
  | Some v => get_or_create_assign self v
  | None => self
  end.

(** [void reset()] *)
Definition reset (self : optional) : optional := None.
End optional.

Arguments optional : clear implicits.

(** ** [option<T>]: the timestamped slot *)

Section option_T.
Context {T : Type} `{!DefaultConstructible T}.

(** [struct option<T> { mutable optional<T> _storage; size_t _timestamp; }] *)
Record option_T : Type := Option {
  _storage : optional T;
  _timestamp : Z
}.

(** [option() : _timestamp(0)] *)
Definition option_default : option_T :=
  {| _storage := optional_default; _timestamp := 0 |}.

(** [option(T&& value) : _storage(value), _timestamp(++_counter)] *)
Definition option_of_value (value : T) : M option_T :=
  let storage := optional_of_value value in
  t ← pre_increment ;
  mret {| _storage := storage; _timestamp := t |}.

(** [option(option<T>&& other)]; returns the new slot and the moved-from
    [other]. *)
Definition option_move (other : option_T) : M (option_T * option_T) :=
  let '(storage, other_storage) := optional_move (_storage other) in
  mret ({| _storage := storage; _timestamp := _timestamp other |},
        {| _storage := other_storage; _timestamp := _timestamp other |}).

(** [option(const option<T>& other)] *)
Definition option_copy (other : option_T) : M option_T :=
  mret {| _storage := optional_copy (_storage other);
          _timestamp := _timestamp other |}.

(** [option& operator=(T&& value)] *)
Definition option_assign_value (self : option_T) (value : T) : M option_T :=
  t ← pre_increment ;
  mret {| _storage := optional_assign_value (_storage self) value;
          _timestamp := t |}.

(** [option& operator=(const option<T>& other)] *)
Definition option_assign (self other : option_T) : M option_T :=
  mret {| _storage := optional_assign (_storage self) (_storage other);
          _timestamp := _timestamp other |}.

(** [T& operator*() const]: [_storage] is [mutable], so the read may
    vivify it; returns the referenced value and the slot afterwards. *)
Definition option_deref (self : option_T) : T * option_T :=
  let '(v, storage) := get_or_create (_storage self) in
  (v, {| _storage := storage; _timestamp := _timestamp self |}).

(** [size_t timestamp() const] *)
Definition timestamp (self : option_T) : Z := _timestamp self.
End option_T.

Arguments option_T : clear implicits.
Arguments Option {T} _ _.

(** ** [option<T, Ts...>], [one_of<T...>] and the visitors

    The alternatives are drawn from a universe [ty] of type names with
    decidable identity; [tyD] gives the C++ type a name stands for. *)

Section one_of.
Context {ty : Type} `{!EqDecision ty} (tyD : ty → Type)
        `{!∀ t, DefaultConstructible (tyD t)}.

(** [struct option<T, Ts...> : option<T>, option<Ts...>]: the base
    subobject for the head type, next to the aggregate of the others.
    The parameter pack takes at least one type. *)
Fixpoint option_Ts (T : ty) (Ts : list ty) : Type :=
  match Ts with
  | [] => option_T (tyD T)
  | T' :: Ts' => option_T (tyD T) * option_Ts T' Ts'
  end.

(** [struct one_of<T...> : option<T...>] *)
Definition one_of (T : ty) (Ts : list ty) : Type := option_Ts T Ts.

(** The implicit default constructor default-constructs every base. *)
Fixpoint one_of_default (T : ty) (Ts : list ty) : one_of T Ts :=
  match Ts with
  | [] => option_default
  | T' :: Ts' => (option_default, one_of_default T' Ts')
  end.

(** The base subobjects, in pack order, each with its type name. *)
Definition base : Type := { t : ty & option_T (tyD t) }.

Fixpoint bases (T : ty) (Ts : list ty) : option_Ts T Ts → list base :=
  match Ts with
  | [] => λ input, [existT T input]
  | T' :: Ts' => λ input, existT T (fst input) :: bases T' Ts' (snd input)
  end.

Definition base_timestamp (b : base) : Z := timestamp (projT2 b).

(** The value [*value] refers to, and the base after that read. *)
Definition base_call (b : base) : { t : ty & tyD t } :=
  existT (projT1 b) (fst (option_deref (projT2 b))).

Definition base_vivified (b : base) : base :=
  existT (projT1 b) (snd (option_deref (projT2 b))).

(** What a run of assignments on a fresh aggregate maintains while the
    counter does not wrap: no timestamp is above the counter, and two
    bases share a timestamp only if it is 0. *)
Definition reached_inv T Ts (input : one_of T Ts) (c : Z) : Prop :=
  (∀ b, b ∈ bases T Ts input → 0 ≤ base_timestamp b ≤ c)
  ∧ (∀ (i j : nat) bi bj, i ≠ j →
       bases T Ts input !! i = Some bi →
       bases T Ts input !! j = Some bj →
       base_timestamp bi = base_timestamp bj →
       base_timestamp bi = 0).

(** A base is the first, in pack order, of greatest timestamp. *)
Definition first_greatest (l : list base) (i : nat) (b : base) : Prop :=
  l !! i = Some b
  ∧ (∀ b', b' ∈ l → base_timestamp b' ≤ base_timestamp b)
  ∧ (∀ j b', (j < i)%nat → l !! j = Some b' →
             base_timestamp b' < base_timestamp b).

(** [input = value] with [value] of type [U]: overload resolution among
    the [operator=] brought in by the using-declarations selects
    [option<U>::operator=(U&&)].  A [U] outside the pack has no viable
    overload (the program is ill-formed); the model leaves [input]
    alone. *)
Fixpoint one_of_assign_value (T : ty) (Ts : list ty) (U : ty)
    (value : tyD U) : one_of T Ts → M (one_of T Ts) :=
  match Ts with
  | [] => λ input,
      match decide (U = T) with
      | left e => option_assign_value input (eq_rect U tyD value T e)
      | right _ => mret input
      end
  | T' :: Ts' => λ input,
      match decide (U = T) with
      | left e =>
          b ← option_assign_value (fst input) (eq_rect U tyD value T e) ;
          mret (b, snd input)
      | right _ =>
          rest ← one_of_assign_value T' Ts' U value (snd input) ;
          mret (fst input, rest)
      end
  end.

(** A run of such assignments, [input = value] for each [(U, value)] in
    turn. *)
Fixpoint one_of_assign_values (T : ty) (Ts : list ty)
    (input : one_of T Ts) (writes : list { U : ty & tyD U })
    : M (one_of T Ts) :=
  match writes with
  | [] => mret input
  | w :: writes' =>
      input' ← one_of_assign_value T Ts (projT1 w) (projT2 w) input ;
      one_of_assign_values T Ts input' writes'
  end.

(** [one_of<T...> input(value)] with [value] of type [U]: the inherited
    constructor [option<U>::option(U&&)] initialises the base for [U];
    every other base is default-initialised.  As for assignment, a [U]
    outside the pack has no viable constructor; the model then builds the
    default aggregate. *)
Fixpoint one_of_of_value (T : ty) (Ts : list ty) (U : ty)
    (value : tyD U) : M (one_of T Ts) :=
  match Ts with
  | [] =>
      match decide (U = T) with
      | left e => option_of_value (eq_rect U tyD value T e)
      | right _ => mret option_default
      end
  | T' :: Ts' =>
      match decide (U = T) with
      | left e =>
          b ← option_of_value (eq_rect U tyD value T e) ;
          mret (b, one_of_default T' Ts')
      | right _ =>
          rest ← one_of_of_value T' Ts' U value ;
          mret (option_default, rest)
      end
  end.

(** *** Visitors

    A visitor declares a [result] type and a [visit] overload for every
    alternative.  The handler is a pure function; each invocation is
    recorded, with its argument, in a call log. *)
Context {result : Type} `{!DefaultConstructible result}.

Definition visitor : Type := ∀ t : ty, tyD t → result.

Definition call : Type := { t : ty & tyD t }.

(** What a visit leaves behind: the returned value, the handler calls
    made, and [input] afterwards (reads through [operator*] vivify). *)
Definition outcome (R I : Type) : Type := R * list call * I.

(** [visitor.visit] applied to [*value], for the base [value] of type
    [T]. *)
Definition invoke (v : visitor) (T : ty) (value : option_T (tyD T))
    : outcome (Datatypes.option result) (option_T (tyD T)) :=
  let '(x, value') := option_deref value in
  (Some (v T x), [existT T x], value').

(** [visitor_helper<T, Ts...>::visit(timestamp, visitor, input)], with
    the [visitor_helper<T>] specialisation as the base case.  The types of
    the pack being pairwise distinct, [static_cast<const option<T>&>]
    yields the one [option<T>] base of [input]: the head of what is left
    of the aggregate when the recursion reaches [T]. *)
Fixpoint visitor_helper (T : ty) (Ts : list ty) (timestamp_ : Z)
    (v : visitor) : option_Ts T Ts →
                    outcome (Datatypes.option result) (option_Ts T Ts) :=
  match Ts with
  | [] => λ input,
      let value := input in
      if bool_decide (timestamp value > timestamp_)
      then invoke v T value
      else (None, [], input)
  | T' :: Ts' => λ input,
      let value := fst input in
      if bool_decide (timestamp value > timestamp_)
      then
        let '(r, log, rest) :=
          visitor_helper T' Ts' (timestamp value) v (snd input) in
        match r with
        | Some res => (Some res, log, (value, rest))
        | None =>
            let '(r', log', value') := invoke v T value in
            (r', log ++ log', (value', rest))
        end
      else
        let '(r, log, rest) :=
          visitor_helper T' Ts' timestamp_ v (snd input) in
        (r, log, (value, rest))
  end.

(** The handler's output on the value [*value] refers to. *)
Definition base_output (v : visitor) (b : base) : result :=
  v (projT1 b) (fst (option_deref (projT2 b))).

(** [visit(visitor, const one_of<T...>& input) -> result] *)
Definition visit (T : ty) (Ts : list ty) (v : visitor)
    (input : one_of T Ts) : outcome result (one_of T Ts) :=
  let '(r, log, input') := visitor_helper T Ts 0 v input in
  match r with
  | Some res => (res, log, input')
  | None => (value_init, log, input')
  end.
End one_of.

(** [visit(visitor, const optional<T>& input)
      -> std::optional<result>]: the single-alternative variant, over a
    bare box.  Returns the result and the handler calls made. *)
Definition visit_optional {T result : Type} (v : T → result)
    (input : optional T) : Datatypes.option result * list T :=
  match input with
  | Some x => (Some (v x), [x])
  | None => (None, [])
  end.

(** ** Histories of one slot

    The operations a program applies, in order, to a slot it has
    default-constructed; used to speak of what has ever happened to it. *)

Section slot_history.
Context {T : Type} `{!DefaultConstructible T}.

Inductive slot_op : Type :=
| op_assign_value (value : T)        (* [slot = value]  *)
| op_assign (other : option_T T)     (* [slot = other]  *)
| op_deref.                          (* [*slot]         *)

Definition apply_op (self : option_T T) (o : slot_op) : M (option_T T) :=
  match o with
  | op_assign_value value => option_assign_value self value
  | op_assign other => option_assign self other
  | op_deref => mret (snd (option_deref self))
  end.

Fixpoint apply_ops (self : option_T T) (ops : list slot_op)
    : M (option_T T) :=
  match ops with
  | [] => mret self
  | o :: ops' => self' ← apply_op self o ; apply_ops self' ops'
  end.

(** The slot has been the target of an explicit (value) assignment. *)
Definition explicitly_assigned (ops : list slot_op) : bool :=
  existsb (λ o, match o with op_assign_value _ => true | _ => false end) ops.

(** The slot has been the target of a slot-to-slot copy assignment. *)
Definition copy_assigned (ops : list slot_op) : bool :=
  existsb (λ o, match o with op_assign _ => true | _ => false end) ops.
End slot_history.

Arguments slot_op : clear implicits.

(** ** Strictly increasing sequences of returned values *)

Definition strictly_increasing (l : list Z) : Prop :=
  ∀ (i j : nat) (a b : Z), (i < j)%nat → l !! i = Some a → l !! j = Some b → a < b.

(** ** An instance: alternatives [int] and [std::string]

    The aggregate [one_of<int, std::string>] and a visitor returning an
    [int]: the number itself, or 100 plus the length of the string. *)

Inductive alt : Type := alt_int | alt_string.

#[export] Instance alt_eq_dec : EqDecision alt.
Proof. solve_decision. Defined.

Definition alt_type (t : alt) : Type :=
  match t with
  | alt_int => Z
  | alt_string => string
  end.

#[export] Instance alt_default_constructible (t : alt)
    : DefaultConstructible (alt_type t) :=
  match t with
  | alt_int => 0
  | alt_string => EmptyString
  end.

Definition measure : visitor alt_type (result:=Z) :=
  λ t, match t with
       | alt_int => λ n, n
       | alt_string => λ s, 100 + Z.of_nat (String.length s)
       end.

(** * Properties *)

(** ** [optional<T>] *)

Section optional_facts.
Context {T : Type} `{!DefaultConstructible T}.

Lemma get_or_create_assign_eq (self : optional T) (value : T) :
  get_or_create_assign self value = Some value.
Proof. by destruct self. Qed.

(** The copy constructor yields a box equal to its source. *)
Lemma optional_copy_eq (other : optional T) : optional_copy other = other.
Proof. by destruct other. Qed.

(** Copy assignment from a box holding a value yields that value. *)
Lemma optional_assign_present (self : optional T) (value : T) :
  optional_assign self (optional_of_value value) = optional_of_value value.
Proof. by destruct self. Qed.

(** Copy assignment from an empty box leaves the target as it was. *)
Lemma optional_assign_empty (self : optional T) :
  optional_assign self optional_default = self.
Proof. done. Qed.

(** C4 (failing case).  Copy-assigning an empty box into a box holding
    [value] leaves the target holding [value]: it is still present and
    not empty, where the copy constructor on the same source yields an
    empty box. *)
Theorem C4_copy_assign_from_empty_keeps_value (value : T) :
  optional_assign (optional_of_value value) optional_default
    = optional_of_value value
  ∧ optional_bool
      (optional_assign (optional_of_value value) optional_default) = true
  ∧ optional_assign (optional_of_value value) optional_default
    ≠ optional_default
  ∧ optional_copy (optional_default : optional T) = optional_default.
Proof. done. Qed.

(** C8.  The single-alternative visit invokes the handler exactly once,
    on the contained value, and returns its wrapped output when the box
    is present; on an empty box it returns nothing and makes no call.
    A result is returned if and only if the box is present.  (The input
    is a bare box: there is no timestamp to consult.) *)
Theorem C8_visit_optional {result : Type} (v : T → result) :
  (∀ x, visit_optional v (optional_of_value x) = (Some (v x), [x]))
  ∧ visit_optional v optional_default = (None, [])
  ∧ (∀ input, is_Some (fst (visit_optional v input))
              ↔ optional_bool input = true)
  ∧ (∀ input, snd (visit_optional v input) = []
              ↔ optional_bool input = false).
Proof.
  repeat split; try done.
  - destruct input; simpl; [done | by intros [? ?]].
  - destruct input; simpl; [done | by eauto].
  - by destruct input.
  - by destruct input.
Qed.

(** C6.  On an empty box the auto-vivifying accessor returns the
    value-initialised [T] and leaves the box present, holding that value;
    dereferencing a slot never changes its timestamp, so a
    default-constructed slot read through [operator*] holds the default
    value with timestamp still 0. *)
Theorem C6_auto_vivification :
  get_or_create (optional_default : optional T)
    = (value_init, optional_of_value value_init)
  ∧ optional_bool (snd (get_or_create (optional_default : optional T)))
    = true
  ∧ (∀ self : option_T T,
       timestamp (snd (option_deref self)) = timestamp self)
  ∧ option_deref (option_default : option_T T)
    = (value_init, Option (optional_of_value value_init) 0).
Proof. repeat split. by intros [[x|] t]. Qed.

(** C5.  Copy-constructing from, or copy-assigning into any slot from, a
    slot holding [value] with timestamp [t] yields a slot holding [value]
    with timestamp [t], and leaves [_counter] as it was. *)
Theorem C5_copy_preserves_timestamp (value : T) (t : Z)
    (self : option_T T) (counter : Z) :
  let source := Option (optional_of_value value) t in
  option_copy source counter = (source, counter)
  ∧ option_assign self source counter = (source, counter).
Proof. destruct self as [[x|] t']; done. Qed.
Lemma pre_increment_small (c : Z) :
  0 ≤ c → c + 1 < uint64_modulus → pre_increment c = (c + 1, c + 1).
Proof.
  intros ? ?. unfold pre_increment. simpl. by rewrite Z.mod_small by lia.
Qed.

Lemma option_assign_value_small (self : option_T T) (value : T) (c : Z) :
  0 ≤ c → c + 1 < uint64_modulus →
  option_assign_value self value c
  = (Option (optional_of_value value) (c + 1), c + 1).
Proof.
  intros ? ?. unfold option_assign_value, mbind, M_bind, mret, M_mret.
  rewrite pre_increment_small by done.
  by unfold optional_assign_value; rewrite get_or_create_assign_eq.
Qed.
End optional_facts.

(** ** The sequence counter *)

Section counter_facts.

Lemma draws_length (n : nat) : ∀ c, length (draws n c).1 = n.
Proof.
  induction n as [|n IH]; intros c; [done|].
  cbn [draws]. unfold mbind, M_bind, mret, M_mret, pre_increment.
  specialize (IH ((c + 1) `mod` uint64_modulus)).
  destruct (draws n _) as [xs c']. simpl in *. by rewrite IH.
Qed.

(** The [i]-th value returned and the counter afterwards, wrap included. *)
Lemma draws_lookup (n : nat) : ∀ c (i : nat),
  (i < n)%nat →
  (draws n c).1 !! i = Some ((c + 1 + Z.of_nat i) `mod` uint64_modulus).
Proof.
  induction n as [|n IH]; intros c i Hi; [lia|].
  cbn [draws]. unfold mbind, M_bind, mret, M_mret, pre_increment.
  specialize (IH ((c + 1) `mod` uint64_modulus)).
  destruct (draws n _) as [xs c']. simpl in IH.
  destruct i as [|i]; cbn [fst lookup list_lookup].
  - by rewrite Z.add_0_r.
  - rewrite IH by lia. f_equal.
    rewrite <- Z.add_assoc, Zplus_mod_idemp_l. f_equal. lia.
Qed.

Lemma draws_wrap (n : nat) :
  Z.of_nat n = uint64_modulus → ¬ strictly_increasing (draws n 0).1.
Proof.
  intros Hn Hinc.
  assert (1 < uint64_modulus) as Hm by (by unfold uint64_modulus).
  assert ((draws n 0).1 !! 0%nat = Some 1) as H0.
  { rewrite draws_lookup by lia. done. }
  assert ((draws n 0).1 !! (n - 1)%nat = Some 0) as H1.
  { rewrite draws_lookup by lia. f_equal.
    replace (0 + 1 + Z.of_nat (n - 1)) with (1 * uint64_modulus) by lia.
    apply Z.mod_mul. lia. }
  pose proof (Hinc 0%nat (n - 1)%nat 1 0 ltac:(lia) H0 H1). lia.
Qed.
Lemma draws_lookup_small (n : nat) (c : Z) (i : nat) (a : Z) :
  0 ≤ c → c + Z.of_nat n < uint64_modulus →
  (draws n c).1 !! i = Some a → a = c + 1 + Z.of_nat i.
Proof.
  intros Hc Hn Hi.
  assert (i < n)%nat as Hlt.
  { rewrite <- (draws_length n c). by eapply lookup_lt_Some. }
  rewrite draws_lookup in Hi by done. injection Hi as <-.
  apply Z.mod_small. lia.
Qed.

(** C7 (amended).  As long as the counter does not wrap, that is for [n]
    draws from a counter value [c] with [c + n < 2^64] (any run of fewer
    than 2^64 draws from the initial value 0), the values returned are
    strictly increasing in call order, hence pairwise distinct, and all
    above the starting value. *)
Theorem C7_draws_strictly_increasing_before_wrap (n : nat) (c : Z) :
  0 ≤ c → c + Z.of_nat n < uint64_modulus →
  strictly_increasing (draws n c).1
  ∧ NoDup (draws n c).1
  ∧ (∀ a, a ∈ (draws n c).1 → c < a).
Proof.
  intros Hc Hn.
  assert (strictly_increasing (draws n c).1) as Hinc.
  { intros i j a b Hij Ha Hb.
    apply (draws_lookup_small n c) in Ha; [|done..].
    apply (draws_lookup_small n c) in Hb; [|done..]. lia. }
  split; [done|]. split.
  - apply NoDup_alt. intros i j a Hi Hj.
    destruct (Nat.lt_trichotomy i j) as [Hlt|[->|Hlt]]; [|done|].
    + pose proof (Hinc i j a a Hlt Hi Hj). lia.
    + pose proof (Hinc j i a a Hlt Hj Hi). lia.
  - intros a (i & Hi)%list_elem_of_lookup_1.
    apply (draws_lookup_small n c) in Hi; [|done..]. lia.
Qed.

(** C7 (as stated, refuted).  With the overflow of the 64-bit counter
    taken modulo 2^64, the 2^64 draws that follow the initial value 0 are
    not strictly increasing: the first returns 1 and the last returns 0. *)
Lemma C7_counterexample_wrap :
  ¬ (NoDup (draws (Z.to_nat uint64_modulus) _counter_init).1
     ∧ strictly_increasing (draws (Z.to_nat uint64_modulus) _counter_init).1).
Proof.
  intros [_ Hinc]. revert Hinc.
  apply draws_wrap. apply Z2Nat.id. by unfold uint64_modulus.
Qed.
End counter_facts.

(** ** Histories of one slot *)

Section slot_history_facts.
Context {T : Type} `{!DefaultConstructible T}.

Implicit Types (self other : option_T T) (ops : list (slot_op T)).

Lemma option_assign_timestamp self other (c : Z) :
  timestamp (option_assign self other c).1 = timestamp other
  ∧ (option_assign self other c).2 = c.
Proof. done. Qed.

Lemma option_deref_timestamp self :
  timestamp (option_deref self).2 = timestamp self.
Proof. by destruct self as [[x|] t]. Qed.

(** Value assignments and reads only: the timestamp is the one the slot
    started with until the first value assignment, and a sequence number
    drawn since afterwards. *)
Lemma apply_ops_timestamp ops : ∀ self (c : Z),
  0 ≤ c → c + Z.of_nat (length ops) < uint64_modulus →
  copy_assigned ops = false →
  c ≤ (apply_ops self ops c).2 ≤ c + Z.of_nat (length ops)
  ∧ if explicitly_assigned ops
    then c < timestamp (apply_ops self ops c).1 ≤ (apply_ops self ops c).2
    else timestamp (apply_ops self ops c).1 = timestamp self
         ∧ (apply_ops self ops c).2 = c.
Proof.
  induction ops as [|o ops IH]; intros self c Hc Hlen Hcopy.
  - simpl. lia.
  - cbn [apply_ops]. unfold mbind, M_bind.
    cbn [length] in Hlen. rewrite Nat2Z.inj_succ in Hlen.
    destruct o as [value|other|]; [| done |].
    + cbn [apply_op]. rewrite option_assign_value_small by lia.
      specialize (IH (Option (optional_of_value value) (c + 1)) (c + 1)
                     ltac:(lia) ltac:(lia) Hcopy).
      change (explicitly_assigned (op_assign_value value :: ops)) with true.
      cbn [length]. rewrite Nat2Z.inj_succ.
      destruct IH as [Hrange IH]. split; [lia|].
      destruct (explicitly_assigned ops); [lia|].
      destruct IH as [-> ->]. unfold timestamp; simpl. lia.
    + cbn [apply_op]. unfold mret, M_mret.
      specialize (IH (option_deref self).2 c Hc ltac:(lia) Hcopy).
      change (explicitly_assigned (op_deref :: ops))
        with (explicitly_assigned ops).
      cbn [length]. rewrite Nat2Z.inj_succ.
      destruct IH as [Hrange IH]. split; [lia|].
      destruct (explicitly_assigned ops); [done|].
      by rewrite option_deref_timestamp in IH.
Qed.

(** C3 (amended).  A default-constructed slot has timestamp 0.  For a
    slot that, since its default construction, has only been the target of
    value assignments and of reads, and while the counter has not wrapped,
    the timestamp is 0 exactly when no value assignment has taken place.
    A value assignment sets the timestamp to the sequence number it draws;
    a copy assignment sets it to the source's timestamp, whatever the
    target's past; a read through [operator*] leaves it unchanged. *)
Theorem C3_timestamp_zero_iff_never_assigned :
  timestamp (option_default : option_T T) = 0
  ∧ (∀ ops (c : Z),
       0 ≤ c → c + Z.of_nat (length ops) < uint64_modulus →
       copy_assigned ops = false →
       (timestamp (apply_ops option_default ops c).1 = 0
        ↔ explicitly_assigned ops = false))
  ∧ (∀ self (value : T) (c : Z),
       0 ≤ c → c + 1 < uint64_modulus →
       timestamp (option_assign_value self value c).1 = c + 1)
  ∧ (∀ self other (c : Z),
       timestamp (option_assign self other c).1 = timestamp other)
  ∧ (∀ self, timestamp (option_deref self).2 = timestamp self).
Proof.
  split; [done|]. split; [|split; [|split]].
  - intros ops c Hc Hlen Hcopy.
    destruct (apply_ops_timestamp ops option_default c Hc Hlen Hcopy)
      as [_ H].
    destruct (explicitly_assigned ops).
    + split; [lia | done].
    + by destruct H as [-> _].
  - intros self value c ? ?. by rewrite option_assign_value_small.
  - intros self other c. apply option_assign_timestamp.
  - apply option_deref_timestamp.
Qed.
End slot_history_facts.

(** C3 (as stated, refuted).  A slot that is assigned the value 7 and is
    then copy-assigned from a default-constructed slot has timestamp 0,
    although it has been the target of an explicit assignment. *)
Lemma C3_counterexample_copy_assign_resets :
  let ops := [op_assign_value 7; op_assign option_default] in
  ¬ (timestamp (apply_ops option_default ops _counter_init).1 = 0
     ↔ explicitly_assigned ops = false).
Proof. simpl. intros [H _]. by specialize (H eq_refl). Qed.

(** ** Resolution over an aggregate *)

Section visit_facts.
Context {ty : Type} `{!EqDecision ty} (tyD : ty → Type)
        `{!∀ t, DefaultConstructible (tyD t)}
        {result : Type} `{!DefaultConstructible result}.

Implicit Types (T U : ty) (Ts : list ty) (v : visitor tyD (result:=result)).

Lemma invoke_eq v T (value : option_T (tyD T)) :
  invoke tyD v T value
  = (Some (base_output tyD v (existT T value)),
     [base_call tyD (existT T value)],
     snd (option_deref value)).
Proof.
  unfold invoke, base_output, base_call. simpl.
  by destruct (option_deref value).
Qed.

Lemma bases_length T Ts (input : option_Ts tyD T Ts) :
  length (bases tyD T Ts input) = S (length Ts).
Proof.
  revert T input. induction Ts as [|T' Ts' IH]; intros T input; simpl.
  - done.
  - by rewrite IH.
Qed.

(** What one run of the recursion does: either no base has a timestamp
    above the threshold, nothing is called and nothing changes; or the
    handler is called once, on the first base in pack order among those of
    greatest timestamp, that timestamp is above the threshold, and only
    that base is touched. *)
Lemma visitor_helper_spec Ts : ∀ T (θ : Z) v (input : option_Ts tyD T Ts),
  (visitor_helper tyD T Ts θ v input = (None, [], input)
   ∧ ∀ b, b ∈ bases tyD T Ts input → base_timestamp tyD b ≤ θ)
  ∨ (∃ (i : nat) (b : base tyD) (input' : option_Ts tyD T Ts),
       bases tyD T Ts input !! i = Some b
       ∧ θ < base_timestamp tyD b
       ∧ (∀ b', b' ∈ bases tyD T Ts input →
                base_timestamp tyD b' ≤ base_timestamp tyD b)
       ∧ (∀ j b', (j < i)%nat → bases tyD T Ts input !! j = Some b' →
                  base_timestamp tyD b' < base_timestamp tyD b)
       ∧ visitor_helper tyD T Ts θ v input
         = (Some (base_output tyD v b), [base_call tyD b], input')
       ∧ bases tyD T Ts input'
         = <[i := base_vivified tyD b]> (bases tyD T Ts input)).
Proof.
  induction Ts as [|T' Ts' IH]; intros T θ v input.
  - simpl. case_bool_decide as Hgt.
    + right. exists 0%nat, (existT T input), (snd (option_deref input)).
      rewrite invoke_eq. repeat split; try done.
      * unfold base_timestamp; simpl. lia.
      * intros b' ->%list_elem_of_singleton. done.
      * intros j b' Hj. lia.
    + left. split; [done|].
      intros b ->%list_elem_of_singleton. unfold base_timestamp; simpl. lia.
  - destruct input as [value rest]. simpl. case_bool_decide as Hgt.
    + destruct (IH T' (timestamp value) v rest)
        as [[Heq Hle] | (i & b & rest' & Hi & Hlt & Hmax & Hfirst & Heq & Hb)].
      * right. rewrite Heq, invoke_eq.
        exists 0%nat, (existT T value), (snd (option_deref value), rest).
        repeat split; try done.
        -- unfold base_timestamp; simpl. lia.
        -- intros b' [->|Hin]%elem_of_cons; [done|]. by apply Hle.
        -- intros j b' Hj. lia.
      * right. rewrite Heq.
        exists (S i), b, (value, rest').
        repeat split; try done.
        -- lia.
        -- intros b' [->|Hin]%elem_of_cons; [|by apply Hmax].
           unfold base_timestamp at 1; simpl. lia.
        -- intros [|j] b' Hj Hb'; simpl in Hb'.
           ++ injection Hb' as <-. done.
           ++ apply (Hfirst j); [lia | done].
        -- simpl. by rewrite Hb.
    + destruct (IH T' θ v rest)
        as [[Heq Hle] | (i & b & rest' & Hi & Hlt & Hmax & Hfirst & Heq & Hb)].
      * left. rewrite Heq. split; [done|].
        intros b' [->|Hin]%elem_of_cons; [|by apply Hle].
        unfold base_timestamp; simpl. lia.
      * right. rewrite Heq.
        exists (S i), b, (value, rest').
        repeat split; try done.
        -- intros b' [->|Hin]%elem_of_cons; [|by apply Hmax].
           unfold base_timestamp at 1; simpl. lia.
        -- intros [|j] b' Hj Hb'; simpl in Hb'.
           ++ injection Hb' as <-. unfold base_timestamp at 1; simpl. lia.
           ++ apply (Hfirst j); [lia | done].
        -- simpl. by rewrite Hb.
Qed.
Lemma one_of_assign_value_head T Ts (value : tyD T)
    (input : one_of tyD T Ts) (c : Z) :
  one_of_assign_value tyD T Ts T value input c
  = match Ts return one_of tyD T Ts → one_of tyD T Ts * Z with
    | [] => λ input, option_assign_value input value c
    | _ :: _ => λ input,
        let '(b, c') := option_assign_value (fst input) value c in
        ((b, snd input), c')
    end input.
Proof.
  destruct Ts as [|T' Ts']; simpl.
  - by rewrite (decide_True_pi (eq_refl T)).
  - by rewrite (decide_True_pi (eq_refl T)).
Qed.

Lemma one_of_assign_value_tail T T' Ts U (value : tyD U)
    (input : one_of tyD T (T' :: Ts)) (c : Z) :
  U ≠ T →
  one_of_assign_value tyD T (T' :: Ts) U value input c
  = let '(rest, c') :=
      one_of_assign_value tyD T' Ts U value (snd input) c in
    ((fst input, rest), c').
Proof. intros Hne. simpl. by destruct (decide (U = T)). Qed.
(** Assignments to, and queries of, a two-type aggregate. *)
Lemma assign_first (A B : ty) (a : tyD A)
    (x : option_T (tyD A)) (y : option_T (tyD B)) (c : Z) :
  0 ≤ c → c + 1 < uint64_modulus →
  one_of_assign_value tyD A [B] A a ((x, y) : one_of tyD A [B]) c
  = ((Option (optional_of_value a) (c + 1), y), c + 1).
Proof.
  intros ? ?. rewrite one_of_assign_value_head.
  cbn [fst snd]. by rewrite option_assign_value_small.
Qed.

Lemma assign_second (A B : ty) (b : tyD B)
    (x : option_T (tyD A)) (y : option_T (tyD B)) (c : Z) :
  A ≠ B → 0 ≤ c → c + 1 < uint64_modulus →
  one_of_assign_value tyD A [B] B b ((x, y) : one_of tyD A [B]) c
  = ((x, Option (optional_of_value b) (c + 1)), c + 1).
Proof.
  intros ? ? ?. rewrite one_of_assign_value_tail by done.
  rewrite one_of_assign_value_head.
  cbn [fst snd]. by rewrite option_assign_value_small.
Qed.

Lemma visit_pair_second (A B : ty) v (x : option_T (tyD A))
    (b : tyD B) (t : Z) :
  0 < t → timestamp x < t →
  visit tyD A [B] v ((x, Option (optional_of_value b) t) : one_of tyD A [B])
  = (v B b, [existT B b], (x, Option (optional_of_value b) t)).
Proof.
  intros ? ?. unfold visit. cbn [visitor_helper fst snd].
  unfold timestamp in *. cbn [_timestamp].
  case_bool_decide.
  - by rewrite bool_decide_true by lia.
  - by rewrite bool_decide_true by lia.
Qed.

Lemma visit_pair_first (A B : ty) v (a : tyD A) (t : Z)
    (y : option_T (tyD B)) :
  0 < t → timestamp y < t →
  visit tyD A [B] v ((Option (optional_of_value a) t, y) : one_of tyD A [B])
  = (v A a, [existT A a], (Option (optional_of_value a) t, y)).
Proof.
  intros ? ?. unfold visit. cbn [visitor_helper fst snd].
  unfold timestamp in *. cbn [_timestamp].
  rewrite bool_decide_true by lia.
  by rewrite bool_decide_false by lia.
Qed.

Lemma bases_one_of_default T Ts (b : base tyD) :
  b ∈ bases tyD T Ts (one_of_default tyD T Ts) → base_timestamp tyD b = 0.
Proof.
  revert T. induction Ts as [|T' Ts' IH]; intros T; simpl.
  - by intros ->%list_elem_of_singleton.
  - intros [->|Hin]%elem_of_cons; [done|]. by apply (IH T').
Qed.

(** *** Aggregates reached by assignments *)

(** One assignment: for a type of the pack it draws one sequence number
    and replaces the (first) base of that type, leaving the others as
    they were; otherwise it does nothing. *)
Lemma one_of_assign_value_bases Ts : ∀ T U (value : tyD U)
    (input : one_of tyD T Ts) (c : Z),
  0 ≤ c → c + 1 < uint64_modulus →
  ((U ∉ T :: Ts)
   ∧ one_of_assign_value tyD T Ts U value input c = (input, c))
  ∨ (U ∈ T :: Ts
     ∧ ∃ (i : nat) (input' : one_of tyD T Ts),
         one_of_assign_value tyD T Ts U value input c = (input', c + 1)
         ∧ (i < length (bases tyD T Ts input))%nat
         ∧ bases tyD T Ts input'
           = <[i := existT U (Option (optional_of_value value) (c + 1))]>
               (bases tyD T Ts input)).
Proof.
  induction Ts as [|T' Ts' IH]; intros T U value input c Hc Hc1.
  - cbn [one_of_assign_value]. destruct (decide (U = T)) as [e|Hne].
    + right. split; [subst; by left|]. destruct e. cbn [eq_rect].
      rewrite option_assign_value_small by done.
      exists 0%nat. eexists. split; [done|]. split; [simpl; lia | done].
    + left. split; [|done]. by intros ->%list_elem_of_singleton.
  - destruct input as [value0 rest]. cbn [one_of_assign_value fst snd].
    destruct (decide (U = T)) as [e|Hne].
    + right. split; [subst; by left|]. destruct e. cbn [eq_rect].
      unfold mbind, M_bind. rewrite option_assign_value_small by done.
      exists 0%nat. eexists. split; [done|]. split; [simpl; lia | done].
    + unfold mbind, M_bind.
      destruct (IH T' U value rest c Hc Hc1)
        as [[Hnotin Heq] | (Hin & i & rest' & Heq & Hi & Hb)];
        rewrite Heq.
      * left. split; [|done].
        intros [->|Hin]%elem_of_cons; [done | by apply Hnotin].
      * right. split; [by right|].
        exists (S i), (value0, rest').
        split; [done|]. split; [simpl; lia|]. simpl. by rewrite Hb.
Qed.

Lemma reached_inv_default T Ts (c : Z) :
  0 ≤ c → reached_inv tyD T Ts (one_of_default tyD T Ts) c.
Proof.
  intros Hc. split.
  - intros b Hb%bases_one_of_default. lia.
  - intros i j bi bj _ Hi%list_elem_of_lookup_2 _ _.
    by apply (bases_one_of_default T Ts).
Qed.

Lemma reached_inv_assign T Ts U (value : tyD U)
    (input : one_of tyD T Ts) (c : Z) :
  0 ≤ c → c + 1 < uint64_modulus →
  reached_inv tyD T Ts input c →
  reached_inv tyD T Ts
    (one_of_assign_value tyD T Ts U value input c).1
    (one_of_assign_value tyD T Ts U value input c).2
  ∧ c ≤ (one_of_assign_value tyD T Ts U value input c).2 ≤ c + 1.
Proof.
  intros Hc Hc1 [Hle Hdistinct].
  destruct (one_of_assign_value_bases Ts T U value input c Hc Hc1)
    as [[_ Heq] | (_ & i & input' & Heq & Hi & Hb)]; rewrite Heq; simpl.
  - split; [by split | lia].
  - assert (∀ j b, bases tyD T Ts input' !! j = Some b →
              (j = i ∧ base_timestamp tyD b = c + 1)
              ∨ (j ≠ i ∧ bases tyD T Ts input !! j = Some b
                 ∧ 0 ≤ base_timestamp tyD b ≤ c)) as Hcases.
    { intros j b. rewrite Hb.
      intros [(-> & <- & _) | [Hne Hj]]%list_lookup_insert_Some.
      - by left.
      - right. split; [done|]. split; [done|].
        apply Hle. by eapply list_elem_of_lookup_2. }
    split; [|lia]. split.
    + intros b (j & Hj)%list_elem_of_lookup_1.
      destruct (Hcases j b Hj) as [[_ ->] | (_ & _ & ?)]; lia.
    + intros j1 j2 b1 b2 Hne H1 H2 Heqt.
      destruct (Hcases j1 b1 H1) as [[-> Ht1] | (Hn1 & Hl1 & Hr1)],
               (Hcases j2 b2 H2) as [[-> Ht2] | (Hn2 & Hl2 & Hr2)];
        try lia.
      by apply (Hdistinct j1 j2 b1 b2).
Qed.

Lemma one_of_assign_values_app T Ts (writes : list { U : ty & tyD U }) :
  ∀ (w : { U : ty & tyD U }) (input : one_of tyD T Ts) (c : Z),
  one_of_assign_values tyD T Ts input (writes ++ [w]) c
  = one_of_assign_value tyD T Ts (projT1 w) (projT2 w)
      (one_of_assign_values tyD T Ts input writes c).1
      (one_of_assign_values tyD T Ts input writes c).2.
Proof.
  induction writes as [|w0 writes IH]; intros w input c.
  - cbn [app one_of_assign_values]. unfold mbind, M_bind, mret, M_mret.
    by destruct (one_of_assign_value _ _ _ _ _ _ _).
  - cbn [app one_of_assign_values]. unfold mbind, M_bind.
    destruct (one_of_assign_value tyD T Ts (projT1 w0) (projT2 w0) input c)
      as [input' c'].
    apply IH.
Qed.

Lemma reached_inv_run T Ts (writes : list { U : ty & tyD U }) :
  ∀ (input : one_of tyD T Ts) (c : Z),
  0 ≤ c → c + Z.of_nat (length writes) < uint64_modulus →
  reached_inv tyD T Ts input c →
  reached_inv tyD T Ts
    (one_of_assign_values tyD T Ts input writes c).1
    (one_of_assign_values tyD T Ts input writes c).2
  ∧ c ≤ (one_of_assign_values tyD T Ts input writes c).2
      ≤ c + Z.of_nat (length writes).
Proof.
  induction writes as [|w writes IH]; intros input c Hc Hlen Hinv.
  - simpl. split; [done | lia].
  - cbn [length] in Hlen. rewrite Nat2Z.inj_succ in Hlen.
    cbn [one_of_assign_values length]. unfold mbind, M_bind.
    rewrite Nat2Z.inj_succ.
    destruct (reached_inv_assign T Ts (projT1 w) (projT2 w) input c
                Hc ltac:(lia) Hinv) as [Hinv' Hc'].
    destruct (one_of_assign_value tyD T Ts (projT1 w) (projT2 w) input c)
      as [input' c']. simpl in Hinv', Hc'.
    destruct (IH input' c' ltac:(lia) ltac:(lia) Hinv') as [? ?].
    split; [done | lia].
Qed.

(** The base picked by resolution when one base holds the greatest
    timestamp alone. *)
Lemma visitor_helper_unique_max T Ts (θ : Z) v (input : option_Ts tyD T Ts)
    (i : nat) (b : base tyD) :
  bases tyD T Ts input !! i = Some b →
  θ < base_timestamp tyD b →
  (∀ j b', j ≠ i → bases tyD T Ts input !! j = Some b' →
           base_timestamp tyD b' < base_timestamp tyD b) →
  ∃ input',
    visitor_helper tyD T Ts θ v input
    = (Some (base_output tyD v b), [base_call tyD b], input')
    ∧ bases tyD T Ts input'
      = <[i := base_vivified tyD b]> (bases tyD T Ts input).
Proof.
  intros Hi Hgt Huniq.
  destruct (visitor_helper_spec Ts T θ v input)
    as [[_ Hle] | (i0 & b0 & input' & Hi0 & _ & Hmax & _ & Heq & Hb)].
  - pose proof (Hle b (list_elem_of_lookup_2 _ _ _ Hi)). lia.
  - destruct (decide (i0 = i)) as [->|Hne].
    + replace b0 with b in * by congruence. by exists input'.
    + pose proof (Huniq i0 b0 Hne Hi0).
      pose proof (Hmax b (list_elem_of_lookup_2 _ _ _ Hi)). lia.
Qed.

(** In an aggregate reached by assignments the greatest timestamp above
    a threshold is held by one base alone. *)
Lemma visitor_helper_reached T Ts (θ : Z) v (input : one_of tyD T Ts)
    (c : Z) :
  reached_inv tyD T Ts input c → 0 ≤ θ →
  (∃ b, b ∈ bases tyD T Ts input ∧ θ < base_timestamp tyD b) →
  ∃ (i : nat) (b : base tyD) input',
    bases tyD T Ts input !! i = Some b
    ∧ θ < base_timestamp tyD b
    ∧ (∀ j b', j ≠ i → bases tyD T Ts input !! j = Some b' →
               base_timestamp tyD b' < base_timestamp tyD b)
    ∧ visitor_helper tyD T Ts θ v input
      = (Some (base_output tyD v b), [base_call tyD b], input')
    ∧ bases tyD T Ts input'
      = <[i := base_vivified tyD b]> (bases tyD T Ts input).
Proof.
  intros [_ Hdistinct] Hθ (b0 & Hb0 & Hgt0).
  destruct (visitor_helper_spec Ts T θ v input)
    as [[_ Hle] | (i & b & input' & Hi & Hgt & Hmax & _ & Heq & Hb)].
  - specialize (Hle b0 Hb0). lia.
  - exists i, b, input'. repeat split; try done.
    intros j b' Hne Hj.
    pose proof (Hmax b' (list_elem_of_lookup_2 _ _ _ Hj)) as Hle.
    destruct (decide (base_timestamp tyD b' = base_timestamp tyD b))
      as [Heqt|]; [|lia].
    pose proof (Hdistinct j i b' b Hne Hj Hi Heqt). lia.
Qed.

(** Last write wins: whatever was assigned before, after [U := u] a query
    calls the handler on [u]. *)
Lemma visit_last_write T Ts (writes : list { U : ty & tyD U }) U
    (u : tyD U) (c : Z) v :
  U ∈ T :: Ts →
  0 ≤ c → c + Z.of_nat (length writes) + 1 < uint64_modulus →
  (visit tyD T Ts v
     (one_of_assign_values tyD T Ts (one_of_default tyD T Ts)
        (writes ++ [existT U u]) c).1).1
  = (v U u, [existT U u]).
Proof.
  intros Hin Hc Hlen. rewrite one_of_assign_values_app. cbn [projT1 projT2].
  destruct (reached_inv_run T Ts writes (one_of_default tyD T Ts) c
              Hc ltac:(lia) (reached_inv_default T Ts c Hc))
    as [[Hle _] Hc0].
  destruct (one_of_assign_values tyD T Ts _ writes c) as [s0 c0].
  cbn [fst snd] in *.
  destruct (one_of_assign_value_bases Ts T U u s0 c0 ltac:(lia) ltac:(lia))
    as [[Hnotin _] | (_ & i & s & Heq & Hi & Hb)]; [done|].
  rewrite Heq. cbn [fst].
  set (b := existT U (Option (optional_of_value u) (c0 + 1)) : base tyD)
    in *.
  destruct (visitor_helper_unique_max T Ts 0 v s i b)
    as (s' & Hvisit & _).
  - rewrite Hb. by apply list_lookup_insert_eq.
  - unfold b, base_timestamp. cbn. lia.
  - intros j b' Hne Hj. rewrite Hb, list_lookup_insert_ne in Hj by done.
    pose proof (Hle b' (list_elem_of_lookup_2 _ _ _ Hj)).
    unfold b, base_timestamp at 2. cbn. lia.
  - unfold visit. by rewrite Hvisit.
Qed.

(** C1 (amended).  Resolution over an aggregate of slots calls the handler
    at most once, and returns a result exactly when some slot has a
    timestamp above the threshold.  When one slot holds, alone, the
    greatest timestamp and that timestamp is above the threshold, the
    handler is called once, with the value that slot dereferences to, and
    its output is returned; only that slot is touched (by the read).  The
    same holds of the entry point [visit], whose threshold is 0.  Provided
    the 64-bit counter does not wrap during the assignments: in an
    aggregate reached from a fresh one by assignments the greatest
    timestamp above a threshold is always held by one slot alone, and a
    query after [U := u] calls the handler on [u]; so, in a two-type
    aggregate, from a counter value [c] with [c + 3 < 2^64], after
    [A := a1] then [B := b1] a query returns the handler's output on [b1],
    and after a further [A := a2], on [a2]. *)
Theorem C1_resolution_last_write_wins :
  (∀ T Ts (θ : Z) v (input : one_of tyD T Ts),
     (length (visitor_helper tyD T Ts θ v input).1.2 ≤ 1)%nat
     ∧ ((∃ b, b ∈ bases tyD T Ts input ∧ θ < base_timestamp tyD b)
        ↔ is_Some (visitor_helper tyD T Ts θ v input).1.1))
  ∧ (∀ T Ts (θ : Z) v (input : one_of tyD T Ts) (i : nat) (b : base tyD),
       bases tyD T Ts input !! i = Some b →
       θ < base_timestamp tyD b →
       (∀ j b', j ≠ i → bases tyD T Ts input !! j = Some b' →
                base_timestamp tyD b' < base_timestamp tyD b) →
       ∃ input',
         visitor_helper tyD T Ts θ v input
         = (Some (base_output tyD v b), [base_call tyD b], input')
         ∧ bases tyD T Ts input'
           = <[i := base_vivified tyD b]> (bases tyD T Ts input))
  ∧ (∀ T Ts v (input : one_of tyD T Ts) (i : nat) (b : base tyD),
       bases tyD T Ts input !! i = Some b →
       0 < base_timestamp tyD b →
       (∀ j b', j ≠ i → bases tyD T Ts input !! j = Some b' →
                base_timestamp tyD b' < base_timestamp tyD b) →
       ∃ input',
         visit tyD T Ts v input
         = (base_output tyD v b, [base_call tyD b], input')
         ∧ bases tyD T Ts input'
           = <[i := base_vivified tyD b]> (bases tyD T Ts input))
  ∧ (∀ T Ts (writes : list { U : ty & tyD U }) (c θ : Z) v,
       0 ≤ c → c + Z.of_nat (length writes) < uint64_modulus → 0 ≤ θ →
       let input :=
         (one_of_assign_values tyD T Ts (one_of_default tyD T Ts)
            writes c).1 in
       (∃ b, b ∈ bases tyD T Ts input ∧ θ < base_timestamp tyD b) →
       ∃ (i : nat) (b : base tyD) input',
         bases tyD T Ts input !! i = Some b
         ∧ θ < base_timestamp tyD b
         ∧ (∀ j b', j ≠ i → bases tyD T Ts input !! j = Some b' →
                    base_timestamp tyD b' < base_timestamp tyD b)
         ∧ visitor_helper tyD T Ts θ v input
           = (Some (base_output tyD v b), [base_call tyD b], input')
         ∧ bases tyD T Ts input'
           = <[i := base_vivified tyD b]> (bases tyD T Ts input))
  ∧ (∀ T Ts (writes : list { U : ty & tyD U }) U (u : tyD U) (c : Z) v,
       U ∈ T :: Ts →
       0 ≤ c → c + Z.of_nat (length writes) + 1 < uint64_modulus →
       (visit tyD T Ts v
          (one_of_assign_values tyD T Ts (one_of_default tyD T Ts)
             (writes ++ [existT U u]) c).1).1
       = (v U u, [existT U u]))
  ∧ (∀ (A B : ty) (a1 a2 : tyD A) (b1 : tyD B) v (c : Z),
       A ≠ B → 0 ≤ c → c + 3 < uint64_modulus →
       let '(s1, c1) :=
         one_of_assign_value tyD A [B] A a1 (one_of_default tyD A [B]) c in
       let '(s2, c2) := one_of_assign_value tyD A [B] B b1 s1 c1 in
       let '(r2, log2, s2') := visit tyD A [B] v s2 in
       let '(s3, c3) := one_of_assign_value tyD A [B] A a2 s2' c2 in
       let '(r3, log3, s3') := visit tyD A [B] v s3 in
       r2 = v B b1 ∧ log2 = [existT B b1]
       ∧ r3 = v A a2 ∧ log3 = [existT A a2]).
Proof.
  split; [|split; [|split; [|split; [|split]]]].
  - intros T Ts θ v input.
    destruct (visitor_helper_spec Ts T θ v input)
      as [[Heq Hle] | (i & b & input' & Hi & Hgt & _ & _ & Heq & _)];
      rewrite Heq; simpl.
    + split; [lia|]. split.
      * intros (b & Hb & Hgt). specialize (Hle b Hb). lia.
      * by intros [? ?].
    + split; [lia|]. split; [by eauto|].
      intros _. exists b. split; [|done]. by eapply list_elem_of_lookup_2.
  - apply visitor_helper_unique_max.
  - intros T Ts v input i b Hi Hgt Huniq.
    destruct (visitor_helper_unique_max T Ts 0 v input i b Hi Hgt Huniq)
      as (input' & Heq & Hb).
    exists input'. unfold visit. by rewrite Heq.
  - intros T Ts writes c θ v Hc Hlen Hθ input Hsome.
    destruct (reached_inv_run T Ts writes (one_of_default tyD T Ts) c
                Hc Hlen (reached_inv_default T Ts c Hc)) as [Hinv _].
    by eapply visitor_helper_reached.
  - apply visit_last_write.
  - intros A B a1 a2 b1 v c Hne Hc0 Hc3.
    cbn [one_of_default].
    rewrite assign_first by lia.
    rewrite assign_second by (done || lia).
    rewrite visit_pair_second by (cbn; lia).
    rewrite assign_first by lia.
    rewrite visit_pair_first by (cbn; lia).
    done.
Qed.

Lemma visitor_helper_none T Ts (θ : Z) v (input : one_of tyD T Ts) :
  (∀ b, b ∈ bases tyD T Ts input → base_timestamp tyD b ≤ θ) →
  visitor_helper tyD T Ts θ v input = (None, [], input).
Proof.
  intros Hle.
  destruct (visitor_helper_spec Ts T θ v input)
    as [[Heq _] | (i & b & input' & Hi & Hgt & _)]; [done|].
  pose proof (Hle b (list_elem_of_lookup_2 _ _ _ Hi)). lia.
Qed.

(** C2.  On a freshly constructed aggregate, over any type pack, the
    resolution at threshold 0 produces no result, calls no handler and
    changes nothing, and the entry point [visit] returns the
    value-initialised [result] of its [return {}]; more generally, the
    resolution produces no result whenever no slot has a timestamp above
    the threshold. *)
Theorem C2_no_slot_above_threshold :
  (∀ T Ts v,
     visitor_helper tyD T Ts 0 v (one_of_default tyD T Ts)
     = (None, [], one_of_default tyD T Ts)
     ∧ visit tyD T Ts v (one_of_default tyD T Ts)
       = (value_init, [], one_of_default tyD T Ts))
  ∧ (∀ T Ts (θ : Z) v (input : one_of tyD T Ts),
       (∀ b, b ∈ bases tyD T Ts input → base_timestamp tyD b ≤ θ) →
       visitor_helper tyD T Ts θ v input = (None, [], input)).
Proof.
  split; [|apply visitor_helper_none].
  intros T Ts v.
  assert (visitor_helper tyD T Ts 0 v (one_of_default tyD T Ts)
          = (None, [], one_of_default tyD T Ts)) as Heq.
  { apply visitor_helper_none. intros b Hb%bases_one_of_default. lia. }
  split; [done|]. unfold visit. by rewrite Heq.
Qed.

(** C9.  Move-constructing from a slot with timestamp [t > 0] draws no
    sequence number, gives the new slot the source's box and timestamp,
    and leaves the source with an empty box and its timestamp [t]; the
    moved-from slot is therefore still picked by a resolution at
    threshold 0, the handler receiving the value-initialised object the
    read vivifies. *)
Theorem C9_moved_from_slot_still_selected T (s : option_T (tyD T))
    (c : Z) v :
  0 < timestamp s →
  ∃ new s',
    option_move s c = ((new, s'), c)
    ∧ new = s
    ∧ _storage s' = optional_default
    ∧ timestamp s' = timestamp s
    ∧ visitor_helper tyD T [] 0 v s'
      = (Some (v T value_init), [existT T value_init],
         Option (optional_of_value value_init) (timestamp s)).
Proof.
  intros Ht. destruct s as [storage t]. unfold timestamp in *. simpl in *.
  eexists _, _. split; [done|]. repeat split.
  simpl. by rewrite bool_decide_true by (simpl; lia).
Qed.

(** C10.  Copy-assigning a default-constructed slot into a slot that holds
    [x] with timestamp [t > 0] draws no sequence number, sets the target's
    timestamp to 0 and leaves its box holding [x]; the slot, selected by a
    resolution at threshold 0 before the assignment, is no longer selected
    after it. *)
Theorem C10_copy_assign_default_hides_value T (s : option_T (tyD T))
    (x : tyD T) (c : Z) v :
  _storage s = optional_of_value x → 0 < timestamp s →
  ∃ s',
    option_assign s option_default c = (s', c)
    ∧ timestamp s' = 0
    ∧ _storage s' = optional_of_value x
    ∧ optional_bool (_storage s') = true
    ∧ visitor_helper tyD T [] 0 v s = (Some (v T x), [existT T x], s)
    ∧ visitor_helper tyD T [] 0 v s' = (None, [], s')
    ∧ visit tyD T [] v s' = (value_init, [], s').
Proof.
  intros Hx Ht. destruct s as [storage t]. unfold timestamp in *.
  simpl in *. subst storage.
  eexists. split; [done|]. repeat split.
  simpl. by rewrite bool_decide_true by (simpl; lia).
Qed.
End visit_facts.

(** ** The properties at work on [one_of<int, std::string>] *)

Lemma C1_witness :
  let input : one_of alt_type alt_int [alt_string] :=
    (Option (optional_of_value 5) 1,
     Option (optional_of_value "hello"%string) 2) in
  (visitor_helper alt_type alt_int [alt_string] 0 measure input).1
  = (Some 105, [existT alt_string "hello"%string])
  ∧ (visit alt_type alt_int [alt_string] measure
       (one_of_assign_values alt_type alt_int [alt_string]
          (one_of_default alt_type alt_int [alt_string])
          ([existT alt_int 5; existT alt_string "hello"%string]
           ++ [existT alt_int 7]) 0).1).1
    = (measure alt_int 7, [existT alt_int 7])
  ∧ (alt_int ≠ alt_string ∧ 0 ≤ 0 ∧ 0 + 3 < uint64_modulus)
  ∧ let '(s1, c1) :=
      one_of_assign_value alt_type alt_int [alt_string] alt_int 5
        (one_of_default alt_type alt_int [alt_string]) 0 in
    let '(s2, c2) :=
      one_of_assign_value alt_type alt_int [alt_string] alt_string
        "hello"%string s1 c1 in
    let '(r2, log2, s2') := visit alt_type alt_int [alt_string] measure s2 in
    let '(s3, c3) :=
      one_of_assign_value alt_type alt_int [alt_string] alt_int 7 s2' c2 in
    let '(r3, log3, s3') := visit alt_type alt_int [alt_string] measure s3 in
    r2 = measure alt_string "hello"%string
    ∧ log2 = [existT alt_string "hello"%string]
    ∧ r3 = measure alt_int 7 ∧ log3 = [existT alt_int 7].
Proof.
  destruct (C1_resolution_last_write_wins alt_type (result:=Z))
    as (_ & Hmax & _ & _ & Hlast & Hscenario).
  split; [|split; [|split]].
  - destruct (Hmax alt_int [alt_string] 0 measure
                (Option (optional_of_value 5) 1,
                 Option (optional_of_value "hello"%string) 2)
                1%nat
                (existT alt_string
                   (Option (optional_of_value "hello"%string) 2)))
      as (input' & Heq & _).
    + reflexivity.
    + reflexivity.
    + intros [|[|j]] b' Hj Hb'; [|done|done].
      injection Hb' as <-. reflexivity.
    + rewrite Heq. reflexivity.
  - apply (Hlast alt_int [alt_string]
             [existT alt_int 5; existT alt_string "hello"%string]
             alt_int 7 0 measure).
    + by left.
    + reflexivity.
    + reflexivity.
  - split; [discriminate | split; [lia | reflexivity]].
  - apply (Hscenario alt_int alt_string 5 7 "hello"%string measure 0).
    + discriminate.
    + reflexivity.
    + reflexivity.
Defined.

(** C1 (as stated, refuted).  Without a bound on the counter the
    last-write-wins scenario fails where the counter wraps.  From the
    counter value 2^64 - 2, [int := 5] draws 2^64 - 1 and
    [string := "hello"] draws 0: the query calls the handler on 5, not on
    "hello".  From 2^64 - 3, a further [int := 7] draws 0: the query after
    it still calls the handler on "hello", not on 7. *)
Lemma C1_counterexample_wrap :
  (let '(s1, c1) :=
     one_of_assign_value alt_type alt_int [alt_string] alt_int 5
       (one_of_default alt_type alt_int [alt_string])
       (uint64_modulus - 2) in
   let '(s2, c2) :=
     one_of_assign_value alt_type alt_int [alt_string] alt_string
       "hello"%string s1 c1 in
   let '(r2, log2, s2') := visit alt_type alt_int [alt_string] measure s2 in
   r2 = measure alt_int 5 ∧ log2 = [existT alt_int 5]
   ∧ r2 ≠ measure alt_string "hello"%string)
  ∧ (let '(s1, c1) :=
       one_of_assign_value alt_type alt_int [alt_string] alt_int 5
         (one_of_default alt_type alt_int [alt_string])
         (uint64_modulus - 3) in
     let '(s2, c2) :=
       one_of_assign_value alt_type alt_int [alt_string] alt_string
         "hello"%string s1 c1 in
     let '(r2, log2, s2') :=
       visit alt_type alt_int [alt_string] measure s2 in
     let '(s3, c3) :=
       one_of_assign_value alt_type alt_int [alt_string] alt_int 7 s2' c2 in
     let '(r3, log3, s3') :=
       visit alt_type alt_int [alt_string] measure s3 in
     r2 = measure alt_string "hello"%string
     ∧ r3 = measure alt_string "hello"%string
     ∧ log3 = [existT alt_string "hello"%string]
     ∧ r3 ≠ measure alt_int 7).
Proof. vm_compute. repeat split; discriminate. Qed.

Lemma C2_witness :
  let input : one_of alt_type alt_int [alt_string] :=
    (Option (optional_of_value 5) 1, option_default) in
  (∀ b, b ∈ bases alt_type alt_int [alt_string] input →
        base_timestamp alt_type b ≤ 1)
  ∧ visitor_helper alt_type alt_int [alt_string] 1 measure input
    = (None, [], input).
Proof.
  assert (∀ b : base alt_type,
            b ∈ bases alt_type alt_int [alt_string]
                  (Option (optional_of_value 5) 1, option_default) →
            base_timestamp alt_type b ≤ 1) as Hle.
  { intros b [->|[->|[]%elem_of_nil]%elem_of_cons]%elem_of_cons;
      unfold base_timestamp; simpl; lia. }
  split; [exact Hle|].
  exact (proj2 (C2_no_slot_above_threshold alt_type (result:=Z))
           alt_int [alt_string] 1 measure _ Hle).
Defined.

Lemma C3_witness :
  let ops : list (slot_op Z) := [op_deref; op_assign_value 7; op_deref] in
  (0 ≤ 0 ∧ 0 + Z.of_nat (length ops) < uint64_modulus
   ∧ copy_assigned ops = false)
  ∧ (timestamp (apply_ops option_default ops 0).1 = 0
     ↔ explicitly_assigned ops = false)
  ∧ (0 ≤ 0 ∧ 0 + 1 < uint64_modulus)
  ∧ timestamp (option_assign_value (option_default : option_T Z) 7 0).1
    = 0 + 1.
Proof.
  destruct (C3_timestamp_zero_iff_never_assigned (T:=Z))
    as (_ & Hiff & Hassign & _).
  split; [|split; [|split]].
  - split; [lia | split; reflexivity].
  - apply Hiff; [lia | reflexivity | reflexivity].
  - split; [lia | reflexivity].
  - apply Hassign; [lia | reflexivity].
Defined.

Lemma C7_witness :
  (0 ≤ _counter_init ∧ _counter_init + Z.of_nat 3 < uint64_modulus)
  ∧ (draws 3 _counter_init).1 = [1; 2; 3]
  ∧ strictly_increasing (draws 3 _counter_init).1
  ∧ NoDup (draws 3 _counter_init).1
  ∧ (∀ a, a ∈ (draws 3 _counter_init).1 → _counter_init < a).
Proof.
  split; [split; [reflexivity | reflexivity] |].
  split; [reflexivity |].
  apply (C7_draws_strictly_increasing_before_wrap 3 _counter_init).
  - reflexivity.
  - reflexivity.
Defined.

Lemma C9_witness :
  let s : option_T (alt_type alt_int) :=
    (option_assign_value option_default 5 _counter_init).1 in
  0 < timestamp s
  ∧ ∃ new s',
      option_move s 1 = ((new, s'), 1)
      ∧ new = s
      ∧ _storage s' = optional_default
      ∧ timestamp s' = timestamp s
      ∧ visitor_helper alt_type alt_int [] 0 measure s'
        = (Some (measure alt_int value_init), [existT alt_int value_init],
           Option (optional_of_value value_init) (timestamp s)).
Proof.
  split; [reflexivity|].
  apply (C9_moved_from_slot_still_selected alt_type alt_int
           (option_assign_value option_default 5 _counter_init).1 1 measure).
  reflexivity.
Defined.

Lemma C10_witness :
  let s : option_T (alt_type alt_int) :=
    (option_assign_value option_default 5 _counter_init).1 in
  (_storage s = optional_of_value 5 ∧ 0 < timestamp s)
  ∧ ∃ s',
      option_assign s option_default 1 = (s', 1)
      ∧ timestamp s' = 0
      ∧ _storage s' = optional_of_value 5
      ∧ optional_bool (_storage s') = true
      ∧ visitor_helper alt_type alt_int [] 0 measure s
        = (Some (measure alt_int 5), [existT alt_int 5], s)
      ∧ visitor_helper alt_type alt_int [] 0 measure s' = (None, [], s')
      ∧ visit alt_type alt_int [] measure s' = (value_init, [], s').
Proof.
  split; [split; reflexivity|].
  apply (C10_copy_assign_default_hides_value alt_type alt_int
           (option_assign_value option_default 5 _counter_init).1 5 1
           measure).
  - reflexivity.
  - reflexivity.
Defined.

(** * Further properties *)

(** ** The box and the slot *)

Section box_facts.
Context {T : Type} `{!DefaultConstructible T}.

Implicit Types (box : optional T) (self other : option_T T).

(** X1.  [get_or_create] never overwrites: on a box that holds a value it
    returns that value and leaves the box as it was, and a second call
    returns what the first returned without changing the box again. *)
Theorem X1_get_or_create_idempotent :
  (∀ x : T, get_or_create (optional_of_value x) = (x, optional_of_value x))
  ∧ (∀ box, get_or_create (get_or_create box).2
            = ((get_or_create box).1, (get_or_create box).2))
  ∧ (∀ box, optional_bool (get_or_create box).2 = true).
Proof. repeat split; by intros [x|]. Qed.

(** X2.  Writing then reading a box: after [box = value], whatever the box
    held, it is present, [operator*] and [get_or_create] give [value], and
    the read leaves the box alone; [reset] empties the box whatever it
    held, after which the value written is gone and [get_or_create]
    creates the value-initialised object. *)
Theorem X2_box_write_read_reset (box : optional T) (value : T) :
  let written := optional_assign_value box value in
  optional_bool written = true
  ∧ optional_star written = Some value
  ∧ get_or_create written = (value, written)
  ∧ optional_bool (reset written) = false
  ∧ optional_star (reset written) = None
  ∧ get_or_create (reset written) = (value_init, optional_of_value value_init).
Proof. by destruct box. Qed.

Lemma option_assign_value_eq self (value : T) (c : Z) :
  option_assign_value self value c
  = (Option (optional_of_value value) ((c + 1) `mod` uint64_modulus),
     (c + 1) `mod` uint64_modulus).
Proof.
  unfold option_assign_value, mbind, M_bind, mret, M_mret, pre_increment,
    optional_assign_value.
  by rewrite get_or_create_assign_eq.
Qed.

(** X3.  A value assignment overwrites the whole slot: the result does
    not depend on what the target was and equals the slot the value
    constructor builds; it draws exactly one sequence number, the slot's
    timestamp is the counter afterwards, and reading the slot gives the
    value without changing the slot. *)
Theorem X3_assign_value_overwrites self (value : T) (c : Z) :
  option_assign_value self value c = option_of_value value c
  ∧ (option_assign_value self value c).2 = (c + 1) `mod` uint64_modulus
  ∧ timestamp (option_assign_value self value c).1
    = (option_assign_value self value c).2
  ∧ option_deref (option_assign_value self value c).1
    = (value, (option_assign_value self value c).1).
Proof. by rewrite option_assign_value_eq. Qed.

(** X4.  Copy construction reproduces every source, empty ones and
    moved-from ones included, and self-assignment [slot = slot] leaves the
    slot as it is; neither touches the counter. *)
Theorem X4_copy_exact_self_assign_noop :
  (∀ other (c : Z), option_copy other c = (other, c))
  ∧ (∀ self (c : Z), option_assign self self c = (self, c))
  ∧ (∀ other (c : Z),
       option_copy (option_move other c).1.2 c
       = (Option optional_default (timestamp other), c)).
Proof.
  repeat split.
  - intros [[x|] t] c; done.
  - intros [[x|] t] c; done.
Qed.

(** X5.  The one counter value at which an assignment is lost: for a
    counter within the 64-bit range, a value assignment yields timestamp
    0 exactly when the counter was 2^64 - 1; the slot then holds the
    value with the timestamp of a slot never assigned, and the counter is
    back at 0. *)
Theorem X5_assignment_at_wrap self (value : T) (c : Z) :
  0 ≤ c < uint64_modulus →
  (timestamp (option_assign_value self value c).1 = 0
   ↔ c = uint64_modulus - 1)
  ∧ (c = uint64_modulus - 1 →
     option_assign_value self value c
     = (Option (optional_of_value value) 0, 0)).
Proof.
  intros Hc. rewrite option_assign_value_eq.
  unfold timestamp. cbn [fst snd _timestamp].
  assert (uint64_modulus = 2 ^ 64) as Hm by done.
  split; [split|].
  - intros H0. destruct (decide (c + 1 < uint64_modulus)) as [Hlt|Hge].
    + rewrite Z.mod_small in H0 by lia. lia.
    + lia.
  - intros ->. replace (uint64_modulus - 1 + 1) with (1 * uint64_modulus)
      by lia. apply Z.mod_mul. lia.
  - intros ->. replace (uint64_modulus - 1 + 1) with (1 * uint64_modulus)
      by lia. rewrite Z.mod_mul by lia. done.
Qed.
(** X15.  Over any history of value assignments, copy assignments and
    reads of a slot: a box that holds a value never becomes empty again
    (no operation of the slot clears it, and copy assignment from an
    empty slot keeps the value), and as long as no value assignment
    occurs the counter stays where it was. *)
Theorem X15_history_keeps_presence (ops : list (slot_op T)) :
  ∀ self (c : Z),
    (optional_bool (_storage self) = true →
     optional_bool (_storage (apply_ops self ops c).1) = true)
    ∧ (explicitly_assigned ops = false → (apply_ops self ops c).2 = c).
Proof.
  induction ops as [|o ops IH]; intros self c; [done|].
  cbn [apply_ops]. unfold mbind, M_bind.
  destruct o as [value|other|].
  - cbn [apply_op]. rewrite option_assign_value_eq.
    split; [|done]. intros _. by apply IH.
  - cbn [apply_op]. unfold option_assign, mret, M_mret.
    change (explicitly_assigned (op_assign other :: ops))
      with (explicitly_assigned ops).
    split; [|apply IH].
    intros Hpresent. apply IH. cbn [_storage].
    destruct self as [[x|] t], other as [[y|] t']; done.
  - cbn [apply_op]. unfold mret, M_mret.
    change (explicitly_assigned (op_deref :: ops))
      with (explicitly_assigned ops).
    split; [|apply IH].
    intros Hpresent. apply IH. by destruct self as [[x|] t].
Qed.
End box_facts.

(** ** The counter over long runs *)

Section counter_wrap_facts.

Lemma draws_counter (n : nat) : ∀ c,
  (draws n c).2
  = match n with
    | O => c
    | S _ => (c + Z.of_nat n) `mod` uint64_modulus
    end.
Proof.
  induction n as [|n IH]; intros c; [done|].
  cbn [draws]. unfold mbind, M_bind, mret, M_mret, pre_increment.
  specialize (IH ((c + 1) `mod` uint64_modulus)).
  destruct (draws n _) as [xs c']. cbn [snd] in *. rewrite IH.
  destruct n as [|n]; [done|].
  rewrite Zplus_mod_idemp_l. f_equal. lia.
Qed.

(** X6.  Across the wrap the counter still never repeats within 2^64
    draws: for any counter value [c], up to 2^64 consecutive draws return
    pairwise distinct values.  Every value returned is within the 64-bit
    range, the [i]-th draw (from 0) returns [(c + 1 + i) mod 2^64], and
    after [n > 0] draws the counter is [(c + n) mod 2^64]. *)
Theorem X6_draws_distinct_within_period (n : nat) (c : Z) :
  (Z.of_nat n ≤ uint64_modulus → NoDup (draws n c).1)
  ∧ (∀ a, a ∈ (draws n c).1 → 0 ≤ a < uint64_modulus)
  ∧ (∀ i : nat, (i < n)%nat →
       (draws n c).1 !! i
       = Some ((c + 1 + Z.of_nat i) `mod` uint64_modulus))
  ∧ ((0 < n)%nat → (draws n c).2 = (c + Z.of_nat n) `mod` uint64_modulus).
Proof.
  assert (0 < uint64_modulus) as Hm by done.
  split; [|split; [|split]].
  - intros Hn. apply NoDup_alt. intros i j a Hi Hj.
    assert (i < n ∧ j < n)%nat as [Hin Hjn].
    { rewrite <- (draws_length n c).
      split; by eapply lookup_lt_Some. }
    rewrite draws_lookup in Hi, Hj by done.
    assert ((c + 1 + Z.of_nat i) `mod` uint64_modulus
            = (c + 1 + Z.of_nat j) `mod` uint64_modulus) as Heq
      by congruence.
    apply Z.cong_iff_0 in Heq.
    replace (c + 1 + Z.of_nat i - (c + 1 + Z.of_nat j))
      with (Z.of_nat i - Z.of_nat j) in Heq by lia.
    apply Z.mod_divide in Heq; [|lia]. destruct Heq as [q Hq].
    destruct (decide (i = j)) as [->|Hne]; [done|]. exfalso.
    unfold uint64_modulus in *. lia.
  - intros a (i & Hi)%list_elem_of_lookup_1.
    assert (i < n)%nat as Hin.
    { rewrite <- (draws_length n c). by eapply lookup_lt_Some. }
    rewrite draws_lookup in Hi by done. injection Hi as <-.
    by apply Z.mod_pos_bound.
  - intros i Hi. by apply draws_lookup.
  - intros Hn. rewrite draws_counter. destruct n; [lia | done].
Qed.
End counter_wrap_facts.

(** ** Resolution: ties, repetition, frame *)

Section resolution_facts.
Context {ty : Type} `{!EqDecision ty} (tyD : ty → Type)
        `{!∀ t, DefaultConstructible (tyD t)}
        {result : Type} `{!DefaultConstructible result}.

Implicit Types (T U : ty) (Ts : list ty) (v : visitor tyD (result:=result)).

Lemma first_greatest_unique (l : list (base tyD)) i1 b1 i2 b2 :
  first_greatest tyD l i1 b1 → first_greatest tyD l i2 b2 →
  i1 = i2 ∧ b1 = b2.
Proof.
  intros (H1 & Hmax1 & Hfirst1) (H2 & Hmax2 & Hfirst2).
  pose proof (Hmax1 b2 (list_elem_of_lookup_2 _ _ _ H2)).
  pose proof (Hmax2 b1 (list_elem_of_lookup_2 _ _ _ H1)).
  destruct (Nat.lt_trichotomy i1 i2) as [Hlt|[->|Hlt]].
  - pose proof (Hfirst2 i1 b1 Hlt H1). lia.
  - split; [done | congruence].
  - pose proof (Hfirst1 i2 b2 Hlt H2). lia.
Qed.

Lemma visitor_helper_first_greatest T Ts (θ : Z) v
    (input : option_Ts tyD T Ts) (i : nat) (b : base tyD) :
  first_greatest tyD (bases tyD T Ts input) i b →
  θ < base_timestamp tyD b →
  ∃ input',
    visitor_helper tyD T Ts θ v input
    = (Some (base_output tyD v b), [base_call tyD b], input')
    ∧ bases tyD T Ts input'
      = <[i := base_vivified tyD b]> (bases tyD T Ts input).
Proof.
  intros Hfg Hgt.
  destruct (visitor_helper_spec tyD Ts T θ v input)
    as [[_ Hle] | (i0 & b0 & input' & Hi0 & _ & Hmax & Hfirst & Heq & Hb)].
  - destruct Hfg as (Hi & _).
    pose proof (Hle b (list_elem_of_lookup_2 _ _ _ Hi)). lia.
  - destruct (first_greatest_unique _ i b i0 b0 Hfg) as [-> ->].
    { by repeat split. }
    by exists input'.
Qed.

(** X7.  Equal timestamps: the comparison being strict, among the slots
    that share the greatest timestamp the first in pack order is the one
    the handler is called on (once), provided that timestamp is above the
    threshold; no other slot is touched. *)
Theorem X7_ties_first_in_pack_order T Ts (θ : Z) v
    (input : one_of tyD T Ts) (i : nat) (b : base tyD) :
  bases tyD T Ts input !! i = Some b →
  θ < base_timestamp tyD b →
  (∀ b', b' ∈ bases tyD T Ts input →
         base_timestamp tyD b' ≤ base_timestamp tyD b) →
  (∀ j b', (j < i)%nat → bases tyD T Ts input !! j = Some b' →
           base_timestamp tyD b' < base_timestamp tyD b) →
  ∃ input',
    visitor_helper tyD T Ts θ v input
    = (Some (base_output tyD v b), [base_call tyD b], input')
    ∧ bases tyD T Ts input'
      = <[i := base_vivified tyD b]> (bases tyD T Ts input).
Proof.
  intros Hi Hgt Hmax Hfirst.
  by apply visitor_helper_first_greatest.
Qed.
Lemma option_deref_idempotent {X : Type} `{!DefaultConstructible X}
    (self : option_T X) :
  option_deref (option_deref self).2
  = ((option_deref self).1, (option_deref self).2).
Proof. by destruct self as [[x|] t]. Qed.

Lemma invoke_repeat v T (value : option_T (tyD T)) :
  invoke tyD v T (invoke tyD v T value).2 = invoke tyD v T value
  ∧ timestamp (invoke tyD v T value).2 = timestamp value.
Proof.
  rewrite !invoke_eq. cbn [snd]. rewrite ?invoke_eq.
  unfold base_output, base_call. cbn [projT1 projT2].
  rewrite option_deref_idempotent. cbn [fst snd].
  split; [done|]. by destruct value as [[x|] t].
Qed.

(** X8.  A query can be repeated: running the resolution again on the
    aggregate the first run left behind gives the same result and the
    same handler call, and changes nothing further; so does [visit]. *)
Theorem X8_query_repeatable T Ts (θ : Z) v (input : one_of tyD T Ts) :
  visitor_helper tyD T Ts θ v (visitor_helper tyD T Ts θ v input).2
  = visitor_helper tyD T Ts θ v input
  ∧ visit tyD T Ts v (visit tyD T Ts v input).2 = visit tyD T Ts v input.
Proof.
  assert (∀ Ts T θ (input : option_Ts tyD T Ts),
            visitor_helper tyD T Ts θ v
              (visitor_helper tyD T Ts θ v input).2
            = visitor_helper tyD T Ts θ v input) as Hrepeat.
  { clear. induction Ts as [|T' Ts' IH]; intros T θ input.
    - cbn [visitor_helper]. cbv zeta.
      destruct (bool_decide (timestamp input > θ)) eqn:Hgt.
      + destruct (invoke_repeat v T input) as [Heq Ht].
        destruct (invoke tyD v T input) as [[r log] value'] eqn:Hinv.
        cbn [snd] in *. by rewrite Ht, Hgt.
      + cbn [snd]. by rewrite Hgt.
    - destruct input as [value rest]. cbn [visitor_helper fst snd].
      cbv zeta.
      destruct (bool_decide (timestamp value > θ)) eqn:Hgt.
      + specialize (IH T' (timestamp value) rest).
        destruct (visitor_helper tyD T' Ts' (timestamp value) v rest)
          as [[r log] rest'] eqn:Hrest. cbn [snd] in IH.
        destruct r as [res|].
        * cbn [fst snd]. by rewrite Hgt, IH.
        * destruct (invoke_repeat v T value) as [Heq Ht].
          destruct (invoke tyD v T value) as [[r' log'] value'] eqn:Hinv.
          cbn [snd] in Heq, Ht. cbn [fst snd].
          by rewrite Ht, Hgt, IH, Heq.
      + specialize (IH T' θ rest).
        destruct (visitor_helper tyD T' Ts' θ v rest)
          as [[r log] rest'] eqn:Hrest. cbn [snd] in IH.
        cbn [fst snd]. by rewrite Hgt, IH. }
  split; [apply Hrepeat|].
  unfold visit. specialize (Hrepeat Ts T 0 input).
  destruct (visitor_helper tyD T Ts 0 v input) as [[r log] input'].
  cbn [snd] in Hrepeat.
  destruct r as [res|]; cbn [snd]; by rewrite Hrepeat.
Qed.
Lemma bases_inj Ts : ∀ T (input1 input2 : option_Ts tyD T Ts),
  bases tyD T Ts input1 = bases tyD T Ts input2 → input1 = input2.
Proof.
  induction Ts as [|T' Ts' IH]; intros T input1 input2 Heq.
  - cbn [bases] in Heq. injection Heq as Heq.
    by apply (Eqdep_dec.inj_pair2_eq_dec _ (decide_rel (=))) in Heq.
  - destruct input1 as [value1 rest1], input2 as [value2 rest2].
    cbn [bases fst snd] in Heq. injection Heq as Hhead Htail.
    apply (Eqdep_dec.inj_pair2_eq_dec _ (decide_rel (=))) in Hhead.
    apply IH in Htail. by subst.
Qed.

Lemma bases_types Ts : ∀ T (input : option_Ts tyD T Ts),
  projT1 <$> bases tyD T Ts input = T :: Ts.
Proof.
  induction Ts as [|T' Ts' IH]; intros T input; [done|].
  cbn [bases fmap list_fmap]. f_equal. apply IH.
Qed.

Lemma base_vivified_timestamp (b : base tyD) :
  base_timestamp tyD (base_vivified tyD b) = base_timestamp tyD b.
Proof. by destruct b as [t [[x|] ts]]. Qed.

Lemma base_vivified_present (b : base tyD) :
  optional_bool (_storage (projT2 b)) = true → base_vivified tyD b = b.
Proof. by destruct b as [t [[x|] ts]]. Qed.

(** X9.  What a query leaves alone: it never changes a timestamp, nor
    the type of a base, and a slot whose box holds a value is left exactly
    as it was (the only change a query can make is to fill an empty
    box). *)
Theorem X9_query_frame T Ts (θ : Z) v (input : one_of tyD T Ts) :
  base_timestamp tyD <$> bases tyD T Ts (visitor_helper tyD T Ts θ v input).2
  = base_timestamp tyD <$> bases tyD T Ts input
  ∧ (∀ (j : nat) (b : base tyD),
       bases tyD T Ts input !! j = Some b →
       optional_bool (_storage (projT2 b)) = true →
       bases tyD T Ts (visitor_helper tyD T Ts θ v input).2 !! j = Some b)
  ∧ ((∀ b : base tyD, b ∈ bases tyD T Ts input →
           optional_bool (_storage (projT2 b)) = true) →
     (visitor_helper tyD T Ts θ v input).2 = input).
Proof.
  destruct (visitor_helper_spec tyD Ts T θ v input)
    as [[Heq _] | (i & b & input' & Hi & _ & _ & _ & Heq & Hb)];
    rewrite Heq; cbn [snd]; [done|].
  split; [|split].
  - rewrite Hb, list_fmap_insert, base_vivified_timestamp.
    apply list_insert_id. by rewrite list_lookup_fmap, Hi.
  - intros j b0 Hj Hpresent. rewrite Hb.
    destruct (decide (i = j)) as [->|Hne].
    + replace b0 with b in * by congruence.
      rewrite base_vivified_present by done.
      by rewrite list_insert_id.
    + by rewrite list_lookup_insert_ne.
  - intros Hall. apply bases_inj. rewrite Hb.
    rewrite base_vivified_present
      by (apply Hall; by eapply list_elem_of_lookup_2).
    by apply list_insert_id.
Qed.

(** X10.  The threshold only gates the answer: when a resolution at
    threshold [θ] produces a result, a resolution at any lower threshold
    produces the same result, through the same handler call, and leaves
    the same aggregate. *)
Theorem X10_lower_threshold_same_answer T Ts (θ θ' : Z) v
    (input : one_of tyD T Ts) :
  θ' ≤ θ →
  is_Some (visitor_helper tyD T Ts θ v input).1.1 →
  visitor_helper tyD T Ts θ' v input = visitor_helper tyD T Ts θ v input.
Proof.
  intros Hle Hsome.
  destruct (visitor_helper_spec tyD Ts T θ v input)
    as [[Heq _] | (i & b & input1 & Hi & Hgt & Hmax & Hfirst & Heq & Hb)];
    rewrite Heq in *; cbn [fst] in Hsome.
  - by destruct Hsome.
  - destruct (visitor_helper_first_greatest T Ts θ' v input i b)
      as (input2 & Heq2 & Hb2); [by repeat split | lia |].
    rewrite Heq2. do 2 f_equal. apply bases_inj. by rewrite Hb, Hb2.
Qed.

(** X11.  The order of the pack does not matter when no two slots share
    a timestamp above the threshold: two aggregates holding the same
    bases in different orders give the same result through the same
    handler call. *)
Theorem X11_pack_order_irrelevant T Ts T' Ts' (θ : Z) v
    (input : one_of tyD T Ts) (input' : one_of tyD T' Ts') :
  bases tyD T Ts input ≡ₚ bases tyD T' Ts' input' →
  (∀ (i j : nat) bi bj, i ≠ j →
     bases tyD T Ts input !! i = Some bi →
     bases tyD T Ts input !! j = Some bj →
     base_timestamp tyD bi = base_timestamp tyD bj →
     base_timestamp tyD bi ≤ θ) →
  (visitor_helper tyD T Ts θ v input).1
  = (visitor_helper tyD T' Ts' θ v input').1.
Proof.
  intros Hperm Hdistinct.
  destruct (visitor_helper_spec tyD Ts T θ v input)
    as [[Heq Hle] | (i & b & input1 & Hi & Hgt & Hmax & _ & Heq & _)],
     (visitor_helper_spec tyD Ts' T' θ v input')
    as [[Heq' Hle'] | (i' & b' & input2 & Hi' & Hgt' & Hmax' & _ & Heq' & _)];
    rewrite Heq, Heq'; cbn [fst]; [done| | |].
  - apply list_elem_of_lookup_2 in Hi'. rewrite <- Hperm in Hi'.
    specialize (Hle b' Hi'). lia.
  - apply list_elem_of_lookup_2 in Hi. rewrite Hperm in Hi.
    specialize (Hle' b Hi). lia.
  - assert (b' ∈ bases tyD T Ts input) as Hin'.
    { rewrite Hperm. by eapply list_elem_of_lookup_2. }
    assert (b ∈ bases tyD T' Ts' input') as Hin.
    { rewrite <- Hperm. by eapply list_elem_of_lookup_2. }
    apply list_elem_of_lookup_1 in Hin' as [j Hj].
    pose proof (Hmax b' (list_elem_of_lookup_2 _ _ _ Hj)).
    pose proof (Hmax' b Hin).
    destruct (decide (i = j)) as [->|Hne].
    + by replace b' with b by congruence.
    + pose proof (Hdistinct i j b b' Hne Hi Hj ltac:(lia)). lia.
Qed.
(** X14.  What a query never does: every handler call it makes is on a
    slot whose timestamp is above the threshold and is the greatest of
    the aggregate, with the value that slot dereferences to; a slot at or
    below the threshold, such as one never assigned when the threshold is
    not negative, is never passed to the handler. *)
Theorem X14_calls_only_on_greatest T Ts (θ : Z) v (input : one_of tyD T Ts)
    (called : call tyD) :
  called ∈ (visitor_helper tyD T Ts θ v input).1.2 →
  ∃ b : base tyD,
    b ∈ bases tyD T Ts input
    ∧ called = base_call tyD b
    ∧ θ < base_timestamp tyD b
    ∧ (∀ b', b' ∈ bases tyD T Ts input →
             base_timestamp tyD b' ≤ base_timestamp tyD b)
    ∧ (visitor_helper tyD T Ts θ v input).1.1
      = Some (base_output tyD v b).
Proof.
  destruct (visitor_helper_spec tyD Ts T θ v input)
    as [[Heq _] | (i & b & input' & Hi & Hgt & Hmax & _ & Heq & _)];
    rewrite Heq; cbn [fst snd].
  - by intros ?%elem_of_nil.
  - intros ->%list_elem_of_singleton. exists b.
    split; [by eapply list_elem_of_lookup_2 | done].
Qed.
End resolution_facts.

(** ** Assignment and construction of an aggregate *)

Section aggregate_facts.
Context {ty : Type} `{!EqDecision ty} (tyD : ty → Type)
        `{!∀ t, DefaultConstructible (tyD t)}
        {result : Type} `{!DefaultConstructible result}.

Implicit Types (T U : ty) (Ts : list ty) (v : visitor tyD (result:=result)).

(** X12.  Assigning a value of a type of the pack draws exactly one
    sequence number and replaces the base of that type (the first
    position of the type in the pack) by a slot holding the value with
    the new counter as timestamp; the bases of the other alternatives,
    values and timestamps, are left as they were. *)
Theorem X12_assignment_frame Ts : ∀ T U (value : tyD U)
    (input : one_of tyD T Ts) (c : Z),
  U ∈ T :: Ts →
  ∃ i : nat,
    (T :: Ts) !! i = Some U
    ∧ (∀ j : nat, (j < i)%nat → (T :: Ts) !! j ≠ Some U)
    ∧ (one_of_assign_value tyD T Ts U value input c).2
      = (c + 1) `mod` uint64_modulus
    ∧ bases tyD T Ts (one_of_assign_value tyD T Ts U value input c).1
      = <[i := existT U (Option (optional_of_value value)
                           ((c + 1) `mod` uint64_modulus))]>
          (bases tyD T Ts input)
    ∧ (∀ j : nat, j ≠ i →
         bases tyD T Ts (one_of_assign_value tyD T Ts U value input c).1 !! j
         = bases tyD T Ts input !! j).
Proof.
  induction Ts as [|T' Ts' IH]; intros T U value input c Hin.
  - apply list_elem_of_singleton in Hin as ->.
    exists 0%nat. cbn [one_of_assign_value].
    rewrite (decide_True_pi (eq_refl T)). cbn [eq_rect].
    rewrite option_assign_value_eq. cbn [fst snd bases].
    repeat split; try done.
    + intros j Hj. lia.
    + intros [|j] Hj; [done|]. by destruct j.
  - destruct input as [value0 rest]. cbn [one_of_assign_value fst snd].
    destruct (decide (U = T)) as [e|Hne].
    + destruct e. cbn [eq_rect]. unfold mbind, M_bind, mret, M_mret.
      rewrite option_assign_value_eq. exists 0%nat. cbn [fst snd bases].
      repeat split; try done.
      * intros j Hj. lia.
      * intros [|j] Hj; [done|]. done.
    + apply elem_of_cons in Hin as [->|Hin]; [done|].
      destruct (IH T' U value rest c Hin)
        as (i & Hi & Hfirst & Hc & Hb & Hother).
      unfold mbind, M_bind, mret, M_mret.
      destruct (one_of_assign_value tyD T' Ts' U value rest c)
        as [rest' c']. cbn [fst snd bases] in *.
      exists (S i). repeat split; try done.
      * intros [|j] Hj; cbn; [congruence|]. apply Hfirst. lia.
      * by rewrite Hb.
      * intros [|j] Hj; [done|]. cbn. apply Hother. lia.
Qed.

(** X13.  Constructing an aggregate from a value is default construction
    followed by the assignment of that value; for a type of the pack, and
    unless the counter wraps to 0 at this draw, a query on the new
    aggregate calls the handler on the value. *)
Theorem X13_construct_from_value T Ts U (value : tyD U) (c : Z) v :
  one_of_of_value tyD T Ts U value c
  = one_of_assign_value tyD T Ts U value (one_of_default tyD T Ts) c
  ∧ (U ∈ T :: Ts → 0 ≤ c → c + 1 < uint64_modulus →
     (visit tyD T Ts v (one_of_of_value tyD T Ts U value c).1).1
     = (v U value, [existT U value])).
Proof.
  assert (∀ Ts T c,
            one_of_of_value tyD T Ts U value c
            = one_of_assign_value tyD T Ts U value
                (one_of_default tyD T Ts) c) as Heq.
  { clear. induction Ts as [|T' Ts' IH]; intros T c.
    - cbn [one_of_of_value one_of_assign_value one_of_default].
      destruct (decide (U = T)) as [e|Hne]; [|done].
      by rewrite option_assign_value_eq.
    - cbn [one_of_of_value one_of_assign_value one_of_default fst snd].
      destruct (decide (U = T)) as [e|Hne].
      + unfold mbind, M_bind. by rewrite option_assign_value_eq.
      + unfold mbind, M_bind. by rewrite IH. }
  split; [apply Heq|].
  intros Hin Hc Hc1. rewrite Heq.
  pose proof (visit_last_write tyD T Ts [] U value c v Hin Hc
                ltac:(cbn; lia)) as Hvisit.
  cbn [app one_of_assign_values projT1 projT2] in Hvisit.
  unfold mbind, M_bind, mret, M_mret in Hvisit.
  by destruct (one_of_assign_value tyD T Ts U value _ c).
Qed.
End aggregate_facts.

(** ** The further properties at work on [one_of<int, std::string>] *)

Lemma X5_witness :
  let c := uint64_modulus - 1 in
  0 ≤ c < uint64_modulus
  ∧ (timestamp (option_assign_value (option_default : option_T Z) 7 c).1 = 0
     ↔ c = uint64_modulus - 1)
  ∧ (c = uint64_modulus - 1 →
     option_assign_value (option_default : option_T Z) 7 c
     = (Option (optional_of_value 7) 0, 0)).
Proof.
  split; [split; [by unfold uint64_modulus | reflexivity]|].
  apply (X5_assignment_at_wrap (T:=Z) option_default 7
           (uint64_modulus - 1)).
  split; [by unfold uint64_modulus | reflexivity].
Defined.

Lemma X6_witness :
  let c := uint64_modulus - 2 in
  Z.of_nat 3 ≤ uint64_modulus
  ∧ (draws 3 c).1 = [uint64_modulus - 1; 0; 1]
  ∧ NoDup (draws 3 c).1
  ∧ (draws 3 c).1 !! 1%nat
    = Some ((c + 1 + Z.of_nat 1) `mod` uint64_modulus)
  ∧ (draws 3 c).2 = (c + Z.of_nat 3) `mod` uint64_modulus.
Proof.
  destruct (X6_draws_distinct_within_period 3 (uint64_modulus - 2))
    as (Hnodup & _ & Hlookup & Hcounter).
  split; [by unfold uint64_modulus|]. split; [reflexivity|].
  split; [|split].
  - apply Hnodup. by unfold uint64_modulus.
  - apply Hlookup. lia.
  - apply Hcounter. lia.
Defined.

Lemma X7_witness :
  let input : one_of alt_type alt_int [alt_string] :=
    (Option (optional_of_value 5) 3,
     Option (optional_of_value "hello"%string) 3) in
  (visitor_helper alt_type alt_int [alt_string] 0 measure input).1
  = (Some 5, [existT alt_int 5]).
Proof.
  destruct (X7_ties_first_in_pack_order alt_type alt_int [alt_string] 0
              measure
              (Option (optional_of_value 5) 3,
               Option (optional_of_value "hello"%string) 3)
              0%nat (existT alt_int (Option (optional_of_value 5) 3)))
    as (input' & Heq & _).
  - reflexivity.
  - reflexivity.
  - intros b' [->|[->|[]%elem_of_nil]%elem_of_cons]%elem_of_cons;
      unfold base_timestamp; simpl; lia.
  - intros j b' Hj. lia.
  - cbv zeta. rewrite Heq. reflexivity.
Defined.

Lemma X9_witness :
  let input : one_of alt_type alt_int [alt_string] :=
    (Option optional_default 4,
     Option (optional_of_value "hello"%string) 2) in
  (visitor_helper alt_type alt_int [alt_string] 0 measure input).2
  = (Option (optional_of_value 0) 4,
     Option (optional_of_value "hello"%string) 2)
  ∧ bases alt_type alt_int [alt_string]
      (visitor_helper alt_type alt_int [alt_string] 0 measure input).2
    !! 1%nat
    = Some (existT alt_string (Option (optional_of_value "hello"%string) 2)).
Proof.
  split; [reflexivity|].
  destruct (X9_query_frame alt_type alt_int [alt_string] 0 measure
              (Option optional_default 4,
               Option (optional_of_value "hello"%string) 2))
    as (_ & Hkept & _).
  apply Hkept; reflexivity.
Defined.

Lemma X10_witness :
  let input : one_of alt_type alt_int [alt_string] :=
    (Option (optional_of_value 5) 1,
     Option (optional_of_value "hello"%string) 2) in
  (0 ≤ 1
   ∧ is_Some
       (visitor_helper alt_type alt_int [alt_string] 1 measure input).1.1)
  ∧ visitor_helper alt_type alt_int [alt_string] 0 measure input
    = visitor_helper alt_type alt_int [alt_string] 1 measure input.
Proof.
  assert (is_Some
            (visitor_helper alt_type alt_int [alt_string] 1 measure
               (Option (optional_of_value 5) 1,
                Option (optional_of_value "hello"%string) 2)).1.1)
    as Hsome by (eexists; reflexivity).
  split; [split; [lia | exact Hsome]|].
  apply (X10_lower_threshold_same_answer alt_type alt_int [alt_string]
           1 0 measure); [lia | exact Hsome].
Defined.

Lemma X11_witness :
  let input : one_of alt_type alt_int [alt_string] :=
    (Option (optional_of_value 5) 1,
     Option (optional_of_value "hello"%string) 2) in
  let swapped : one_of alt_type alt_string [alt_int] :=
    (Option (optional_of_value "hello"%string) 2,
     Option (optional_of_value 5) 1) in
  (visitor_helper alt_type alt_int [alt_string] 0 measure input).1
  = (visitor_helper alt_type alt_string [alt_int] 0 measure swapped).1
  ∧ (visitor_helper alt_type alt_string [alt_int] 0 measure swapped).1
    = (Some 105, [existT alt_string "hello"%string]).
Proof.
  split; [|reflexivity].
  apply (X11_pack_order_irrelevant alt_type alt_int [alt_string]
           alt_string [alt_int] 0 measure).
  - apply perm_swap.
  - intros [|[|i]] [|[|j]] bi bj Hne Hi Hj; try done.
    + injection Hi as <-. injection Hj as <-. done.
    + injection Hi as <-. injection Hj as <-. done.
Defined.

Lemma X12_witness :
  ∃ i : nat,
    [alt_int; alt_string] !! i = Some alt_string
    ∧ (∀ j : nat, (j < i)%nat → [alt_int; alt_string] !! j ≠ Some alt_string)
    ∧ (one_of_assign_value alt_type alt_int [alt_string] alt_string
         "hello"%string (one_of_default alt_type alt_int [alt_string]) 0).2
      = (0 + 1) `mod` uint64_modulus
    ∧ bases alt_type alt_int [alt_string]
        (one_of_assign_value alt_type alt_int [alt_string] alt_string
           "hello"%string (one_of_default alt_type alt_int [alt_string]) 0).1
      = <[i := existT alt_string
                 (Option (optional_of_value "hello"%string)
                    ((0 + 1) `mod` uint64_modulus))]>
          (bases alt_type alt_int [alt_string]
             (one_of_default alt_type alt_int [alt_string]))
    ∧ (∀ j : nat, j ≠ i →
         bases alt_type alt_int [alt_string]
           (one_of_assign_value alt_type alt_int [alt_string] alt_string
              "hello"%string
              (one_of_default alt_type alt_int [alt_string]) 0).1 !! j
         = bases alt_type alt_int [alt_string]
             (one_of_default alt_type alt_int [alt_string]) !! j).
Proof.
  apply (X12_assignment_frame alt_type [alt_string] alt_int alt_string
           "hello"%string (one_of_default alt_type alt_int [alt_string]) 0).
  right. left.
Defined.

Lemma X13_witness :
  (alt_int ∈ [alt_int; alt_string] ∧ 0 ≤ 0 ∧ 0 + 1 < uint64_modulus)
  ∧ (visit alt_type alt_int [alt_string] measure
       (one_of_of_value alt_type alt_int [alt_string] alt_int 5 0).1).1
    = (measure alt_int 5, [existT alt_int 5]).
Proof.
  split; [split; [left | split; [lia | reflexivity]]|].
  apply (X13_construct_from_value alt_type alt_int [alt_string] alt_int
           5 0 measure).
  - left.
  - lia.
  - reflexivity.
Defined.

Lemma X14_witness :
  let input : one_of alt_type alt_int [alt_string] :=
    (Option (optional_of_value 5) 1, option_default) in
  existT alt_int 5
    ∈ (visitor_helper alt_type alt_int [alt_string] 0 measure input).1.2
  ∧ ∃ b : base alt_type,
      b ∈ bases alt_type alt_int [alt_string] input
      ∧ existT alt_int 5 = base_call alt_type b
      ∧ 0 < base_timestamp alt_type b
      ∧ (∀ b', b' ∈ bases alt_type alt_int [alt_string] input →
               base_timestamp alt_type b' ≤ base_timestamp alt_type b)
      ∧ (visitor_helper alt_type alt_int [alt_string] 0 measure input).1.1
        = Some (base_output alt_type measure b).
Proof.
  assert (existT alt_int 5
            ∈ (visitor_helper alt_type alt_int [alt_string] 0 measure
                 (Option (optional_of_value 5) 1, option_default)).1.2)
    as Hcalled by left.
  split; [exact Hcalled|].
  exact (X14_calls_only_on_greatest alt_type alt_int [alt_string] 0 measure
           _ _ Hcalled).
Defined.

Lemma X15_witness :
  let self : option_T Z := Option (optional_of_value 5) 1 in
  let ops : list (slot_op Z) :=
    [op_assign option_default; op_deref; op_assign (Option optional_default 9)] in
  (optional_bool (_storage self) = true ∧ explicitly_assigned ops = false)
  ∧ apply_ops self ops 1 = (Option (optional_of_value 5) 9, 1)
  ∧ optional_bool (_storage (apply_ops self ops 1).1) = true
  ∧ (apply_ops self ops 1).2 = 1.
Proof.
  destruct (X15_history_keeps_presence (T:=Z)
              [op_assign option_default; op_deref;
               op_assign (Option optional_default 9)]
              (Option (optional_of_value 5) 1) 1)
    as (Hpresent & Hcounter).
  split; [split; reflexivity|]. split; [reflexivity|]. split.
  - apply Hpresent. reflexivity.
  - apply Hcounter. reflexivity.
Defined.

End havoc.
